(** * The content warehouse: failover download orchestration

    A shallow embedding of [pulp/server/content/sources/warehouse.py]:
    the [ContentWarehouse] controller ([collated], [cancel], [reset],
    [download], [refresh]) and the [NectarListener] bridge that adapts
    transport events to request updates and listener notifications.

    Python objects that are mutated in place and shared (the requests of
    a request list, which are also the [data] payload of the transport
    jobs and reports) live in a store indexed by references; the
    warehouse code runs in a small state-and-exception monad that also
    records the calls made to the external collaborators. *)

From Stdlib Require Import ZArith Lia.
From stdpp Require Import gmap strings list fin_maps functions sorting.

Set Default Proof Using "Type".

(** ** Content sources *)

(** Modelled from the spec: [pulp.server.content.sources.model] is not part
    of the sources at hand.  A content source is either an alternate source
    loaded from a descriptor (id and priority) or the primary source, the
    sentinel wrapping the downloader supplied by the caller. *)
Inductive ContentSource : Type :=
| AlternateSource (source_id : string) (priority : Z)
| PrimarySource (downloader : string).

#[global] Instance ContentSource_eq_dec : EqDecision ContentSource.
Proof. solve_decision. Defined.

#[global] Instance ContentSource_countable : Countable ContentSource.
Proof.
  refine (inj_countable'
            (λ s, match s with
                  | AlternateSource i p => inl (i, p)
                  | PrimarySource d => inr d
                  end)
            (λ x, match x with
                  | inl (i, p) => AlternateSource i p
                  | inr d => PrimarySource d
                  end) _).
  by intros [].
Defined.

(** Modelled from the spec: "priority (integer, lower = tried first, primary
    is always maximal)", "ties broken by id for determinism". *)
Definition source_leb (a b : ContentSource) : bool :=
  match a, b with
  | AlternateSource i p, AlternateSource j q =>
      (p <? q)%Z || ((p =? q)%Z && String.leb i j)
  | AlternateSource _ _, PrimarySource _ => true
  | PrimarySource _, AlternateSource _ _ => false
  | PrimarySource d, PrimarySource e => String.leb d e
  end.

Definition source_le (a b : ContentSource) : Prop := source_leb a b = true.

#[global] Instance source_le_dec a b : Decision (source_le a b).
Proof. unfold source_le. apply _. Defined.

(** ** Requests *)

Module Request.

(** Modelled from the spec: the [Request] class of
    [pulp.server.content.sources.model].  "Attributes: unit key,
    destination, downloaded, errors (one per failed attempt), an internally
    ordered list of (ContentSource, address) candidates and a cursor." *)
Record t : Type := mk {
  unit_key : string;
  url : string;
  destination : string;
  downloaded : bool;
  errors : list string;
  candidates : list (ContentSource * string);
  cursor : nat
}.

Definition set_downloaded (b : bool) (r : t) : t :=
  mk (unit_key r) (url r) (destination r) b (errors r) (candidates r) (cursor r).

Definition set_errors (es : list string) (r : t) : t :=
  mk (unit_key r) (url r) (destination r) (downloaded r) es (candidates r) (cursor r).

Definition set_cursor (n : nat) (r : t) : t :=
  mk (unit_key r) (url r) (destination r) (downloaded r) (errors r) (candidates r) n.

Definition set_candidates (cs : list (ContentSource * string)) (r : t) : t :=
  mk (unit_key r) (url r) (destination r) (downloaded r) (errors r) cs 0.

(** Modelled from the spec: "[next_source()]: returns the next unconsumed
    candidate and advances the cursor, or signals exhaustion (None) when
    the list is consumed; returns None immediately if downloaded is
    already true."  The result pairs the returned value with the request
    after the call. *)
Definition next_source (r : t) : option (ContentSource * string) * t :=
  if downloaded r then (None, r)
  else match candidates r !! cursor r with
       | Some c => (Some c, set_cursor (S (cursor r)) r)
       | None => (None, r)
       end.

(** Modelled from the spec: "[has_source()]: true iff the cursor has not
    yet reached the end of the candidate list." *)
Definition has_source (r : t) : bool :=
  bool_decide (cursor r < length (candidates r)).

End Request.

(** ** Transport jobs and reports (nectar) *)

Module Nectar.

(** [DownloadRequest(url, destination, data=request)]: the [data] payload
    is a reference to the originating request. *)
Record DownloadRequest : Type := mkRequest {
  url : string;
  destination : string;
  data : nat
}.

#[global] Instance DownloadRequest_eq_dec : EqDecision DownloadRequest.
Proof. solve_decision. Defined.

(** The part of a [DownloadReport] read by the bridge. *)
Record DownloadReport : Type := mkReport {
  report_data : nat;
  error_msg : string
}.

End Nectar.

(** ** The request store *)

(** Requests are shared mutable objects: a reference is a natural number
    and the store maps every reference to the current state of its
    request. *)
Abbreviation Store := (nat → Request.t).

Abbreviation Collation := (gmap ContentSource (list Nectar.DownloadRequest)).

(** ** [ContentWarehouse.collated] *)

(** One iteration of the [for request in request_list] loop. *)
Definition collated_body (acc : Collation * Store) (request : nat) : Collation * Store :=
  let '(collated, st) := acc in
  if Request.downloaded (st request) then acc
  else
    let '(source, r') := Request.next_source (st request) in
    let st' := <[request := r']> st in
    match source with
    | None => (collated, st')
    | Some source =>
        let nectar_list := default [] (collated !! source.1) in
        let nectar_request :=
          Nectar.mkRequest source.2 (Request.destination (st' request)) request in
        (<[source.1 := nectar_list ++ [nectar_request]]> collated, st')
    end.

Definition collated_from (request_list : list nat) (acc : Collation * Store) : Collation * Store :=
  foldl collated_body acc request_list.

Definition collated (request_list : list nat) (st : Store) : Collation * Store :=
  collated_from request_list (∅, st).

(** ** Exceptions, outcomes and the record of external calls *)

(** An instance of Python's [Exception].  [str(e)] returns the text of most
    exceptions, but it raises for some (in Python 2 a unicode message outside
    ASCII gives a [UnicodeEncodeError], and a [__str__] of the exception's
    own may raise): such an exception carries the error that [str] raises
    for it. *)
Inductive Exception : Type :=
| Exc (message : string)
| Unprintable (error : Exception).

(** What a call into external code (a source, a transport, a listener)
    does: it returns a value or raises. *)
Inductive Result (A : Type) : Type :=
| Ok (a : A)
| Raise (e : Exception).
Arguments Ok {A} a.
Arguments Raise {A} e.

(** [str(e)] *)
Definition str (e : Exception) : Result string :=
  match e with
  | Exc m => Ok m
  | Unprintable error => Raise error
  end.

(** What a computation of the warehouse does: it returns, raises, or is
    still running when the loop bound of [download] is used up. *)
Inductive Outcome (A : Type) : Type :=
| Returned (a : A)
| Raised (e : Exception)
| OutOfFuel.
Arguments Returned {A} a.
Arguments Raised {A} e.
Arguments OutOfFuel {A}.

(** The three callbacks of a [Listener], which are also the three events a
    transport delivers to its [DownloadEventListener]. *)
Inductive Notification : Type := Started | Succeeded | Failed.

(** Modelled from the spec: "a factory for a transport-specific downloader
    bound to that source"; the primary source hands out the downloader of
    the caller. *)
Inductive Downloader : Type :=
| SourceDownloader (source_id : string)
| PrimaryDownloader (name : string).

Definition downloader (source : ContentSource) : Downloader :=
  match source with
  | AlternateSource i _ => SourceDownloader i
  | PrimarySource d => PrimaryDownloader d
  end.

(** Modelled from the spec: "RefreshReport: source id, list of error
    strings"; the constructor is called as [RefreshReport(source_id, '')]. *)
Record RefreshReport : Type := mkRefreshReport {
  report_source_id : string;
  report_url : string;
  report_errors : list string
}.

(** Calls that leave the warehouse, in the order they are made. *)
Inductive Event : Type :=
| Notified (n : Notification) (request : nat)
| LogException (n : Notification)
| LogError (source_id : string) (e : Exception)
| DownloaderCancel (d : Downloader)
| DownloaderDownload (d : Downloader) (nectar_list : list Nectar.DownloadRequest)
| SourceRefresh (source_id : string)
| PurgeExpired.

#[global] Instance Exception_eq_dec : EqDecision Exception.
Proof. solve_decision. Defined.
#[global] Instance Notification_eq_dec : EqDecision Notification.
Proof. solve_decision. Defined.
#[global] Instance Downloader_eq_dec : EqDecision Downloader.
Proof. solve_decision. Defined.
#[global] Instance Event_eq_dec : EqDecision Event.
Proof. solve_decision. Defined.

(** What a transport does while it works on a batch: it delivers an event
    to its listener, or some other caller cancels the warehouse meanwhile. *)
Inductive TransportAction : Type :=
| Deliver (n : Notification) (report : Nectar.DownloadReport)
| Cancel.

(** ** The warehouse and its collaborators *)

(** The warehouse ([sources], [listener], [cancelled]), the requests it
    works on and the catalog behind [managers.content_catalog_manager()].
    The caller's listener objects and the catalog are external, so their
    types are left open.  [sources] lists the registry in the order of
    [self.sources.items()]. *)
Record State (Listener Catalog : Type) : Type := mkState {
  sources : list (string * ContentSource);
  listener : option Listener;
  cancelled : bool;
  requests : Store;
  catalog : Catalog
}.
Arguments mkState {Listener Catalog}.
Arguments sources {Listener Catalog}.
Arguments listener {Listener Catalog}.
Arguments cancelled {Listener Catalog}.
Arguments requests {Listener Catalog}.
Arguments catalog {Listener Catalog}.

(** The code the warehouse calls into: the catalog manager
    ([has_entries], [purge_expired], the lookup behind
    [Request.find_sources]), [source.refresh()], the callbacks of the
    listener and the transport behind [downloader.download(...)], which
    answers a batch with the actions it takes and the way its call ends. *)
Class Environment (Listener Catalog : Type) : Type := {
  has_entries : Catalog → string → bool;
  purge_expired : Catalog → Catalog;
  catalog_find : Catalog → string → ContentSource → option string;
  source_refresh :
    ContentSource → State Listener Catalog → Result (list RefreshReport) * State Listener Catalog;
  listener_call :
    Listener → Notification → nat → State Listener Catalog → Result unit * State Listener Catalog;
  transport :
    Downloader → list Nectar.DownloadRequest → State Listener Catalog →
    list TransportAction * Result unit
}.

Section Monad.

Context {Listener Catalog : Type}.

Abbreviation State' := (State Listener Catalog).

Definition set_cancelled (b : bool) (s : State') : State' :=
  mkState (sources s) (listener s) b (requests s) (catalog s).

Definition set_requests (st : Store) (s : State') : State' :=
  mkState (sources s) (listener s) (cancelled s) st (catalog s).

Definition set_catalog (c : Catalog) (s : State') : State' :=
  mkState (sources s) (listener s) (cancelled s) (requests s) c.

(** *** The monad *)

Definition M (A : Type) : Type := State' → list Event → Outcome A * State' * list Event.

Definition ret {A} (a : A) : M A := λ s t, (Returned a, s, t).

Definition bind {A B} (m : M A) (k : A → M B) : M B := λ s t,
  match m s t with
  | (Returned a, s', t') => k a s' t'
  | (Raised e, s', t') => (Raised e, s', t')
  | (OutOfFuel, s', t') => (OutOfFuel, s', t')
  end.

(** [try: body except Exception, e: handler e] *)
Definition try_except {A} (body : M A) (handler : Exception → M A) : M A := λ s t,
  match body s t with
  | (Raised e, s', t') => handler e s' t'
  | r => r
  end.

Definition gets {A} (f : State' → A) : M A := λ s t, (Returned (f s), s, t).
Definition modify (f : State' → State') : M unit := λ s t, (Returned tt, f s, t).
Definition emit (ev : Event) : M unit := λ s t, (Returned tt, s, t ++ [ev]).
Definition out_of_fuel {A} : M A := λ s t, (OutOfFuel, s, t).

Definition external {A} (f : State' → Result A * State') : M A := λ s t,
  match f s with
  | (Ok a, s') => (Returned a, s', t)
  | (Raise e, s') => (Raised e, s', t)
  end.

End Monad.

Arguments M : clear implicits.

Notation "x <- m ;; k" := (bind m (λ x, k))
  (at level 100, m at next level, right associativity).
Notation "m ;; k" := (bind m (λ _, k))
  (at level 100, right associativity).

Section ContentWarehouse.

Context {Listener Catalog : Type} `{!Environment Listener Catalog}.

Abbreviation State' := (State Listener Catalog).
Abbreviation M' := (M Listener Catalog).

Fixpoint for_each {A} (l : list A) (body : A → M' unit) : M' unit :=
  match l with
  | [] => ret tt
  | x :: l' => body x ;; for_each l' body
  end.

(** *** The bridge: [NectarListener] *)

(** [request.downloaded = True] *)
Definition mark_downloaded (request : nat) (s : State') : State' :=
  set_requests (alter (Request.set_downloaded true) request (requests s)) s.

(** [request.errors.append(msg)] *)
Definition record_error (request : nat) (msg : string) (s : State') : State' :=
  set_requests
    (alter (λ r, Request.set_errors (Request.errors r ++ [msg]) r) request (requests s)) s.

(** [listener.download_xxx(request)] *)
Definition invoke (l : Listener) (n : Notification) (request : nat) : M' unit :=
  emit (Notified n request) ;; external (listener_call l n request).

Definition _notify (l : Listener) (n : Notification) (request : nat) : M' unit :=
  try_except (invoke l n request) (λ _, emit (LogException n)).

Definition download_started (d : Downloader) (report : Nectar.DownloadReport) : M' unit :=
  c <- gets cancelled ;;
  if c : bool then emit (DownloaderCancel d)
  else
    let request := Nectar.report_data report in
    l <- gets listener ;;
    match l with
    | None => ret tt
    | Some l => _notify l Started request
    end.

Definition download_succeeded (d : Downloader) (report : Nectar.DownloadReport) : M' unit :=
  c <- gets cancelled ;;
  if c : bool then emit (DownloaderCancel d)
  else
    let request := Nectar.report_data report in
    modify (mark_downloaded request) ;;
    l <- gets listener ;;
    match l with
    | None => ret tt
    | Some l => _notify l Succeeded request
    end.

Definition download_failed (d : Downloader) (report : Nectar.DownloadReport) : M' unit :=
  c <- gets cancelled ;;
  if c : bool then emit (DownloaderCancel d)
  else
    let request := Nectar.report_data report in
    modify (record_error request (Nectar.error_msg report)) ;;
    l <- gets listener ;;
    match l with
    | None => ret tt
    | Some l =>
        more <- gets (λ s, Request.has_source (requests s request)) ;;
        if more : bool then ret tt
        else _notify l Failed request
    end.

(** *** The controller: [ContentWarehouse] *)

Definition cancel : M' unit := modify (set_cancelled true).

Definition reset : M' unit := modify (set_cancelled false).

Fixpoint refresh_loop (force : bool) (items : list (string * ContentSource))
    (reports : list RefreshReport) : M' (option (list RefreshReport)) :=
  match items with
  | [] => ret (Some reports)
  | (source_id, source) :: items' =>
      c <- gets cancelled ;;
      if c : bool then ret None
      else
        fresh <- gets (λ s, has_entries (catalog s) source_id) ;;
        if force || negb fresh then
          reports' <-
            try_except
              (emit (SourceRefresh source_id) ;;
               report <- external (source_refresh source) ;;
               ret (reports ++ report))
              (λ e,
                 emit (LogError source_id e) ;;
                 text <- external (λ s, (str e, s)) ;;
                 ret (reports ++ [mkRefreshReport source_id "" [text]])) ;;
          refresh_loop force items' reports'
        else refresh_loop force items' reports
  end.

(** After the loop: the bare [return] inside the loop has left the method
    ([None]); otherwise [catalog.purge_expired()] and [return reports]. *)
Definition refresh_end (r : option (list RefreshReport))
    : M' (option (list RefreshReport)) :=
  match r with
  | None => ret None
  | Some reports =>
      emit PurgeExpired ;;
      modify (λ s, set_catalog (purge_expired (catalog s)) s) ;;
      ret (Some reports)
  end.

(** The result is [None] where the Python method returns [None]. *)
Definition refresh (force : bool) : M' (option (list RefreshReport)) :=
  reset ;;
  items <- gets sources ;;
  r <- refresh_loop force items [] ;;
  refresh_end r.

(** Modelled from the spec: "[find_sources(primary, sources)]: for each
    registered source in ascending priority order, looks up a fresh
    catalog address for the unit; if present, appends (source, address);
    finally appends (primary, original_url) unconditionally"; ties in
    priority are broken by id. *)
Definition find_sources (primary : ContentSource) (request : nat) : M' unit :=
  modify (λ s,
    let r := requests s request in
    let ordered := merge_sort source_le (sources s).*2 in
    let resolved :=
      omap (λ source, (source,.) <$> catalog_find (catalog s) (Request.unit_key r) source)
           ordered in
    set_requests
      (<[request := Request.set_candidates (resolved ++ [(primary, Request.url r)]) r]>
         (requests s)) s).

(** The transport works through its batch and reports to the bridge
    bound to it ([downloader.event_listener = NectarListener(self,
    downloader)]). *)
Definition deliver (d : Downloader) (a : TransportAction) : M' unit :=
  match a with
  | Deliver Started report => download_started d report
  | Deliver Succeeded report => download_succeeded d report
  | Deliver Failed report => download_failed d report
  | Cancel => cancel
  end.

(** [downloader.download(nectar_list)] *)
Definition downloader_download (d : Downloader)
    (nectar_list : list Nectar.DownloadRequest) : M' unit :=
  emit (DownloaderDownload d nectar_list) ;;
  script <- gets (transport d nectar_list) ;;
  for_each script.1 (deliver d) ;;
  external (λ s, (script.2, s)).

Definition run_collated (request_list : list nat) : M' Collation := λ s t,
  let '(c, st) := collated request_list (requests s) in
  (Returned c, set_requests st s, t).

(** One round: [for source, nectar_list in collated.items()]. *)
Definition dispatch (c : Collation) : M' unit :=
  for_each (map_to_list c)
    (λ '(source, nectar_list), downloader_download (downloader source) nectar_list).

(** The [while not self.cancelled] loop, run for at most [fuel] rounds. *)
Fixpoint download_loop (fuel : nat) (request_list : list nat) : M' unit :=
  match fuel with
  | 0 => out_of_fuel
  | S fuel' =>
      c <- gets cancelled ;;
      if c : bool then ret tt
      else
        collated <- run_collated request_list ;;
        if decide (collated = ∅) then ret tt
        else dispatch collated ;; download_loop fuel' request_list
  end.

Definition download (fuel : nat) (primary_downloader : string)
    (request_list : list nat) : M' unit :=
  reset ;;
  refresh false ;;
  let primary := PrimarySource primary_downloader in
  for_each request_list (find_sources primary) ;;
  download_loop fuel request_list.

End ContentWarehouse.

(** ** Reading outcomes *)

(** The record made of a listener call: an exception is logged by
    [log.exception(str(method))]. *)
Definition log_of (n : Notification) (res : Result unit) : list Event :=
  match res with
  | Ok _ => []
  | Raise _ => [LogException n]
  end.

(** The state in which the bridge calls the listener for an event. *)
Definition before_notify {Listener Catalog} (n : Notification)
    (report : Nectar.DownloadReport) (s : State Listener Catalog) : State Listener Catalog :=
  match n with
  | Started => s
  | Succeeded => mark_downloaded (Nectar.report_data report) s
  | Failed => record_error (Nectar.report_data report) (Nectar.error_msg report) s
  end.

Definition outcome {Listener Catalog A}
    (r : Outcome A * State Listener Catalog * list Event) : Outcome A := r.1.1.
Definition final {Listener Catalog A}
    (r : Outcome A * State Listener Catalog * list Event) : State Listener Catalog := r.1.2.
Definition calls {Listener Catalog A}
    (r : Outcome A * State Listener Catalog * list Event) : list Event := r.2.

(** The calls made by a computation started with the record [t]. *)
Definition new_calls {Listener Catalog A} (t : list Event)
    (r : Outcome A * State Listener Catalog * list Event) : list Event :=
  drop (length t) (calls r).

(** ** A concrete deployment *)

Module Scenario.

(** Two kinds of listener: one whose callbacks return, one whose
    callbacks raise. *)
Inductive Listener : Type := Quiet | Faulty.

(** Catalog entries: source id, unit key, address. *)
Definition Catalog : Type := list (string * string * string).

Definition has_entries (c : Catalog) (source_id : string) : bool :=
  existsb (λ e, String.eqb e.1.1 source_id) c.

Definition catalog_find (c : Catalog) (unit_key : string) (source : ContentSource)
    : option string :=
  match source with
  | AlternateSource i _ =>
      snd <$> List.find (λ e, String.eqb e.1.1 i && String.eqb e.1.2 unit_key) c
  | PrimarySource _ => None
  end.

(** Source "bad" cannot be reached; while source "slow" is refreshed some
    other caller cancels the warehouse; every other source answers with
    one report. *)
Definition source_refresh (source : ContentSource) (s : State Listener Catalog)
    : Result (list RefreshReport) * State Listener Catalog :=
  match source with
  | AlternateSource i _ =>
      if String.eqb i "bad" then (Raise (Exc "connection refused"), s)
      else if String.eqb i "slow" then
        (Ok [mkRefreshReport i "http://slow/" []], set_cancelled true s)
      else (Ok [mkRefreshReport i "http://mirror/" []], s)
  | PrimarySource _ => (Ok [], s)
  end.

Definition listener_call (l : Listener) (n : Notification) (request : nat)
    (s : State Listener Catalog) : Result unit * State Listener Catalog :=
  match l with
  | Quiet => (Ok tt, s)
  | Faulty => (Raise (Exc "listener failed"), s)
  end.

(** Alternate source "a" fails every job, alternate source "b" completes
    its jobs while some other caller cancels the warehouse, and every
    other downloader completes its jobs. *)
Definition transport (d : Downloader) (nectar_list : list Nectar.DownloadRequest)
    (s : State Listener Catalog) : list TransportAction * Result unit :=
  let report j msg := Nectar.mkReport (Nectar.data j) msg in
  match d with
  | SourceDownloader i =>
      if String.eqb i "a" then
        (flat_map (λ j, [Deliver Started (report j ""); Deliver Failed (report j "404")])
                  nectar_list, Ok tt)
      else if String.eqb i "b" then
        (flat_map (λ j, [Deliver Started (report j ""); Deliver Succeeded (report j "")])
                  nectar_list ++ [Cancel], Ok tt)
      else
        (flat_map (λ j, [Deliver Started (report j ""); Deliver Succeeded (report j "")])
                  nectar_list, Ok tt)
  | PrimaryDownloader _ =>
      (flat_map (λ j, [Deliver Started (report j ""); Deliver Succeeded (report j "")])
                nectar_list, Ok tt)
  end.

#[global] Instance env : Environment Listener Catalog :=
  Build_Environment Listener Catalog
    has_entries (λ c, c) catalog_find source_refresh listener_call transport.

(** A deployment in which nobody cancels while a source is refreshed. *)
Definition calm_source_refresh (source : ContentSource) (s : State Listener Catalog)
    : Result (list RefreshReport) * State Listener Catalog :=
  match source with
  | AlternateSource i _ =>
      if String.eqb i "bad" then (Raise (Exc "connection refused"), s)
      else (Ok [mkRefreshReport i "http://mirror/" []], s)
  | PrimarySource _ => (Ok [], s)
  end.

Definition calm : Environment Listener Catalog :=
  Build_Environment Listener Catalog
    has_entries (λ c, c) catalog_find calm_source_refresh listener_call transport.

(** A deployment in which source "garbled" fails with an exception whose
    message is the unicode string [u'\xe9']: [str] of it raises the
    [UnicodeEncodeError] below. *)
Definition encode_error : Exception :=
  Exc "'ascii' codec can't encode character u'\xe9' in position 0: ordinal not in range(128)".

Definition garbled_source_refresh (source : ContentSource) (s : State Listener Catalog)
    : Result (list RefreshReport) * State Listener Catalog :=
  match source with
  | AlternateSource i _ =>
      if String.eqb i "garbled" then (Raise (Unprintable encode_error), s)
      else calm_source_refresh source s
  | PrimarySource _ => (Ok [], s)
  end.

Definition garbled : Environment Listener Catalog :=
  Build_Environment Listener Catalog
    has_entries (λ c, c) catalog_find garbled_source_refresh listener_call transport.

Definition source_a : ContentSource := AlternateSource "a" 1.
Definition source_b : ContentSource := AlternateSource "b" 2.
Definition primary : ContentSource := PrimarySource "yum".

(** Request 0 has tried source "a" and has the primary left, request 1
    has tried all its candidates, request 2 is downloaded, request 3 has
    tried nothing yet, every other request is exhausted. *)
Definition store : Store := λ n,
  match n with
  | 0 => Request.mk "pkg-0" "http://origin/0" "/tmp/0" false []
           [(source_a, "http://a/0"); (primary, "http://origin/0")] 1
  | 1 => Request.mk "pkg-1" "http://origin/1" "/tmp/1" false ["404"]
           [(source_a, "http://a/1"); (primary, "http://origin/1")] 2
  | 2 => Request.mk "pkg-2" "http://origin/2" "/tmp/2" true []
           [(source_a, "http://a/2"); (primary, "http://origin/2")] 1
  | 3 => Request.mk "pkg-3" "http://origin/3" "/tmp/3" false []
           [(source_b, "http://b/3"); (primary, "http://origin/3")] 0
  | _ => Request.mk "pkg-n" "http://origin/n" "/tmp/n" false ["404"; "503"]
           [(source_a, "http://a/n"); (primary, "http://origin/n")] 2
  end.

(** A registry in which a cancellation arrives while "slow" is refreshed,
    and one without it. *)
Definition registry : list (string * ContentSource) :=
  [("bad", AlternateSource "bad" 3); ("slow", AlternateSource "slow" 1);
   ("b", source_b)].

Definition small_registry : list (string * ContentSource) :=
  [("bad", AlternateSource "bad" 3); ("b", source_b)].

Definition garbled_registry : list (string * ContentSource) :=
  [("garbled", AlternateSource "garbled" 3); ("b", source_b)].

Definition state (items : list (string * ContentSource)) (l : option Listener)
    (c : bool) : State Listener Catalog :=
  mkState items l c store [].

(** The downloader of source "a", and the report of a failed job. *)
Definition on_a : Downloader := SourceDownloader "a".

Definition failure (request : nat) : Nectar.DownloadReport :=
  Nectar.mkReport request "404".

Definition success (request : nat) : Nectar.DownloadReport :=
  Nectar.mkReport request "".

End Scenario.

(** ** Housekeeping: [ContentWarehouse.purge_orphans] *)

(** The one further method of the catalog manager the warehouse calls. *)
Class OrphanPurge (Catalog : Type) : Type := {
  catalog_purge_orphans : Catalog → list string → Catalog
}.

Section Orphans.

Context {Listener Catalog : Type} `{!OrphanPurge Catalog}.

(** [valid_ids = list(self.sources.keys())] and
    [catalog.purge_orphans(valid_ids)]. *)
Definition purge_orphans : M Listener Catalog unit :=
  valid_ids <- gets (λ s, (sources s).*1) ;;
  modify (λ s, set_catalog (catalog_purge_orphans (catalog s) valid_ids) s).

End Orphans.

(** ** Measures and invariants of a run *)

(** The candidates a request has not tried yet. *)
Definition remaining (r : Request.t) : nat :=
  length (Request.candidates r) - Request.cursor r.

(** The candidates left to the entries of a request list. *)
Definition pending (request_list : list nat) (st : Store) : nat :=
  sum_list_with (λ q, remaining (st q)) request_list.

(** A request only moves forward: its identity, destination and candidates
    stay, a download is not undone, errors are only added and the cursor
    does not go back. *)
Definition moves_forward (r r' : Request.t) : Prop :=
  Request.unit_key r' = Request.unit_key r
  ∧ Request.url r' = Request.url r
  ∧ Request.destination r' = Request.destination r
  ∧ Request.candidates r' = Request.candidates r
  ∧ (Request.downloaded r = true → Request.downloaded r' = true)
  ∧ Request.errors r `prefix_of` Request.errors r'
  ∧ Request.cursor r ≤ Request.cursor r'.

(** What is known of every job in a collation built from the store [st0]
    for the list [l]. *)
Definition job_of (l : list nat) (st0 : Store) (source : ContentSource)
    (j : Nectar.DownloadRequest) : Prop :=
  Nectar.data j ∈ l
  ∧ Request.downloaded (st0 (Nectar.data j)) = false
  ∧ (source, Nectar.url j) ∈ Request.candidates (st0 (Nectar.data j))
  ∧ Nectar.destination j = Request.destination (st0 (Nectar.data j)).

Definition sound (l : list nat) (st0 : Store) (acc : Collation * Store) : Prop :=
  (∀ q, moves_forward (st0 q) (acc.2 q))
  ∧ ∀ source jobs, acc.1 !! source = Some jobs →
      jobs ≠ [] ∧ Forall (job_of l st0 source) jobs.

(** The sources whose [refresh()] was called, in order. *)
Definition refreshed (evs : list Event) : list string :=
  omap (λ ev, match ev with SourceRefresh i => Some i | _ => None end) evs.

(** The batches handed to downloaders, in order. *)
Definition dispatched (evs : list Event) : list (Downloader * list Nectar.DownloadRequest) :=
  omap (λ ev, match ev with DownloaderDownload d jobs => Some (d, jobs) | _ => None end) evs.

(** The listener callbacks made, in order. *)
Definition notified (evs : list Event) : list (Notification * nat) :=
  omap (λ ev, match ev with Notified n q => Some (n, q) | _ => None end) evs.

(** Every request has moved forward from one state to the other. *)
Definition forward {Listener Catalog} (s s' : State Listener Catalog) : Prop :=
  ∀ q, moves_forward (requests s q) (requests s' q).

(** No request has more candidates left in the second state than in the
    first. *)
Definition no_more_left {Listener Catalog} (s s' : State Listener Catalog) : Prop :=
  ∀ q, remaining (requests s' q) ≤ remaining (requests s q).

(** Nothing is required of the states, or of the calls. *)
Definition any_state {Listener Catalog} (s s' : State Listener Catalog) : Prop := True.

Definition any_call (ev : Event) : Prop := True.

(** A batch handed to a downloader is not empty and made of jobs for
    requests of the list. *)
Definition batch_of (request_list : list nat) (ev : Event) : Prop :=
  ∀ d jobs, ev = DownloaderDownload d jobs →
    (∃ source, d = downloader source)
    ∧ jobs ≠ []
    ∧ ∀ j, j ∈ jobs → Nectar.data j ∈ request_list.

(** What a bridge bound to the downloader [d] records for a script while
    the warehouse is cancelled: one [downloader.cancel()] for each event. *)
Definition cancels (d : Downloader) (script : list TransportAction) : list Event :=
  omap (λ a, match a with
             | Deliver _ _ => Some (DownloaderCancel d)
             | Cancel => None
             end) script.

Section Frames.

Context {Listener Catalog : Type}.

(** A computation keeps a relation [R] between the state it starts in and
    the state it ends in, and records only calls that satisfy [Q]. *)
Definition keeps (R : relation (State Listener Catalog)) (Q : Event → Prop)
    {A} (m : M Listener Catalog A) : Prop :=
  ∀ s t, R s (final (m s t)) ∧ ∃ new, calls (m s t) = t ++ new ∧ Forall Q new.

(** A computation comes to an end without the loop bound. *)
Definition finishes {A} (m : M Listener Catalog A) : Prop :=
  ∀ s t, outcome (m s t) ≠ OutOfFuel.

End Frames.

(** ** A deployment with a catalog that can be purged *)

Module Housekeeping.

(** Keep the entries of the sources named in [valid_ids]. *)
Definition purge (c : list (string * string * string)) (valid_ids : list string)
    : list (string * string * string) :=
  filter (λ e, e.1.1 ∈ valid_ids) c.

#[global] Instance orphans : OrphanPurge Scenario.Catalog :=
  Build_OrphanPurge Scenario.Catalog purge.

Definition entries : Scenario.Catalog :=
  [("b", "pkg-3", "http://b/3"); ("gone", "pkg-3", "http://gone/3");
   ("bad", "pkg-0", "http://bad/0")].

Definition state : State Scenario.Listener Scenario.Catalog :=
  mkState Scenario.small_registry None false Scenario.store entries.

End Housekeeping.

(** ** Properties of the bridge *)

Section Bridge.

Context {Listener Catalog : Type} `{!Environment Listener Catalog}.

Implicit Types (s : State Listener Catalog) (t : list Event).

Lemma notify_spec (l : Listener) n request s t :
  _notify l n request s t =
    (Returned tt, (listener_call l n request s).2,
     t ++ Notified n request :: log_of n (listener_call l n request s).1).
Proof.
  unfold _notify, try_except, invoke, bind, emit, external.
  destruct (listener_call l n request s) as [[[]|e] s2]; simpl.
  - reflexivity.
  - by rewrite <- app_assoc.
Qed.

Lemma record_error_errors request msg s :
  Request.errors (requests (record_error request msg s) request)
  = Request.errors (requests s request) ++ [msg].
Proof. unfold record_error. simpl. by rewrite fn_lookup_alter. Qed.

Lemma record_error_has_source request msg s :
  Request.has_source (requests (record_error request msg s) request)
  = Request.has_source (requests s request).
Proof. unfold record_error. simpl. by rewrite fn_lookup_alter. Qed.

Lemma record_error_other request msg s r :
  r ≠ request → requests (record_error request msg s) r = requests s r.
Proof. intros. unfold record_error. simpl. by rewrite fn_lookup_alter_ne. Qed.

Lemma mark_downloaded_downloaded request s :
  Request.downloaded (requests (mark_downloaded request s) request) = true.
Proof. unfold mark_downloaded. simpl. by rewrite fn_lookup_alter. Qed.

Lemma mark_downloaded_other request s r :
  r ≠ request → requests (mark_downloaded request s) r = requests s r.
Proof. intros. unfold mark_downloaded. simpl. by rewrite fn_lookup_alter_ne. Qed.

(** The three handlers, case by case. *)

Lemma handler_cancelled d n report s t :
  cancelled s = true →
  deliver d (Deliver n report) s t = (Returned tt, s, t ++ [DownloaderCancel d]).
Proof.
  intros Hc.
  destruct n; simpl;
    unfold download_started, download_succeeded, download_failed, bind, gets, emit;
    by rewrite Hc.
Qed.

Lemma handler_no_listener d n report s t :
  cancelled s = false → listener s = None →
  deliver d (Deliver n report) s t = (Returned tt, before_notify n report s, t).
Proof.
  intros Hc Hl.
  destruct n; simpl;
    unfold download_started, download_succeeded, download_failed, bind, gets, modify, ret;
    rewrite Hc; simpl; by rewrite Hl.
Qed.

Lemma download_started_listener d report l s t :
  cancelled s = false → listener s = Some l →
  download_started d report s t = _notify l Started (Nectar.report_data report) s t.
Proof.
  intros Hc Hl. unfold download_started, bind, gets. by rewrite Hc, Hl.
Qed.

Lemma download_succeeded_listener d report l s t :
  cancelled s = false → listener s = Some l →
  download_succeeded d report s t
  = _notify l Succeeded (Nectar.report_data report)
      (mark_downloaded (Nectar.report_data report) s) t.
Proof.
  intros Hc Hl. unfold download_succeeded, bind, gets, modify.
  rewrite Hc. simpl. by rewrite Hl.
Qed.

Lemma download_failed_listener d report l s t :
  cancelled s = false → listener s = Some l →
  download_failed d report s t
  = if Request.has_source (requests s (Nectar.report_data report))
    then (Returned tt, record_error (Nectar.report_data report) (Nectar.error_msg report) s, t)
    else _notify l Failed (Nectar.report_data report)
           (record_error (Nectar.report_data report) (Nectar.error_msg report) s) t.
Proof.
  intros Hc Hl. unfold download_failed, bind, gets, modify, ret.
  rewrite Hc. simpl. rewrite Hl.
  rewrite (record_error_has_source (Nectar.report_data report)).
  by destruct (Request.has_source _).
Qed.

(** Every action of a transport is handled without an exception, and
    only adds to the record of calls. *)
Lemma deliver_returns d a s t :
  ∃ s' new, deliver d a s t = (Returned tt, s', t ++ new).
Proof.
  destruct a as [n report|]; [|exists (set_cancelled true s), []; by rewrite app_nil_r].
  destruct (cancelled s) eqn:Hc.
  { rewrite handler_cancelled by done. by eexists _, _. }
  destruct (listener s) as [l|] eqn:Hl.
  2:{ rewrite handler_no_listener by done. eexists _, []. by rewrite app_nil_r. }
  destruct n; simpl.
  - rewrite (download_started_listener d report l), notify_spec by done. by eexists _, _.
  - rewrite (download_succeeded_listener d report l), notify_spec by done. by eexists _, _.
  - rewrite (download_failed_listener d report l) by done.
    destruct (Request.has_source _).
    + eexists _, []. by rewrite app_nil_r.
    + rewrite notify_spec. by eexists _, _.
Qed.




(** C8. A [succeeded] event: when the warehouse is cancelled the bridge
    tells its downloader to cancel and returns, and nothing else changes
    (the request stays as it was); otherwise it sets [downloaded] on the
    request, and then forwards the event to the listener when there is
    one. *)
Theorem download_succeeded_spec d report s t :
  let request := Nectar.report_data report in
  (cancelled s = true →
     download_succeeded d report s t = (Returned tt, s, t ++ [DownloaderCancel d]))
  ∧ (cancelled s = false →
       let s1 := mark_downloaded request s in
       Request.downloaded (requests s1 request) = true
       ∧ (∀ r, r ≠ request → requests s1 r = requests s r)
       ∧ download_succeeded d report s t =
           match listener s with
           | None => (Returned tt, s1, t)
           | Some l =>
               (Returned tt, (listener_call l Succeeded request s1).2,
                t ++ Notified Succeeded request
                       :: log_of Succeeded (listener_call l Succeeded request s1).1)
           end).
Proof.
  intros request. split.
  - intros Hc. by apply (handler_cancelled d Succeeded).
  - intros Hc s1. split_and!.
    + apply mark_downloaded_downloaded.
    + intros r Hr. by apply mark_downloaded_other.
    + destruct (listener s) as [l|] eqn:Hl.
      * rewrite (download_succeeded_listener d report l) by done. apply notify_spec.
      * by apply (handler_no_listener d Succeeded).
Qed.

(** C10. In the success and failure handlers the request is updated
    before the listener is looked at: the update is made when there is no
    listener; a listener is called in the updated state; and when the
    callback raises, the bridge returns with the state the callback left,
    so the update stands unless the callback undid it itself. *)
Theorem request_updated_before_listener d report s t :
  cancelled s = false →
  let request := Nectar.report_data report in
  let msg := Nectar.error_msg report in
  (listener s = None →
     final (download_succeeded d report s t) = mark_downloaded request s
     ∧ Request.downloaded (requests (final (download_succeeded d report s t)) request) = true
     ∧ final (download_failed d report s t) = record_error request msg s
     ∧ Request.errors (requests (final (download_failed d report s t)) request)
       = Request.errors (requests s request) ++ [msg])
  ∧ (∀ l : Listener, listener s = Some l →
       final (download_succeeded d report s t)
         = (listener_call l Succeeded request (mark_downloaded request s)).2
       ∧ final (download_failed d report s t)
         = if Request.has_source (requests s request)
           then record_error request msg s
           else (listener_call l Failed request (record_error request msg s)).2)
  ∧ (∀ (l : Listener) e s2, listener s = Some l →
       listener_call l Succeeded request (mark_downloaded request s) = (Raise e, s2) →
       requests s2 request = requests (mark_downloaded request s) request →
       outcome (download_succeeded d report s t) = Returned tt
       ∧ Request.downloaded (requests (final (download_succeeded d report s t)) request)
         = true)
  ∧ (∀ (l : Listener) e s2, listener s = Some l →
       listener_call l Failed request (record_error request msg s) = (Raise e, s2) →
       requests s2 request = requests (record_error request msg s) request →
       outcome (download_failed d report s t) = Returned tt
       ∧ Request.errors (requests (final (download_failed d report s t)) request)
         = Request.errors (requests s request) ++ [msg]).
Proof.
  intros Hc request msg. split_and!.
  - intros Hl.
    pose proof (handler_no_listener d Succeeded report s t Hc Hl) as Hs.
    pose proof (handler_no_listener d Failed report s t Hc Hl) as Hf.
    simpl in Hs, Hf. rewrite Hs, Hf. unfold final. simpl. split_and!; try done.
    + apply mark_downloaded_downloaded.
    + apply record_error_errors.
  - intros l Hl.
    rewrite (download_succeeded_listener d report l s t Hc Hl).
    rewrite (download_failed_listener d report l s t Hc Hl).
    fold request msg. rewrite !notify_spec.
    split; [done|]. by destruct (Request.has_source _).
  - intros l e s2 Hl Hcall Hsame.
    rewrite (download_succeeded_listener d report l s t Hc Hl).
    fold request. rewrite notify_spec, Hcall. unfold outcome, final. simpl.
    split; [done|]. rewrite Hsame. apply mark_downloaded_downloaded.
  - intros l e s2 Hl Hcall Hsame.
    rewrite (download_failed_listener d report l s t Hc Hl).
    fold request msg.
    destruct (Request.has_source (requests s request)).
    + unfold outcome, final. simpl. split; [done|]. apply record_error_errors.
    + rewrite notify_spec, Hcall. unfold outcome, final. simpl.
      split; [done|]. rewrite Hsame. apply record_error_errors.
Qed.

End Bridge.

(** ** Properties of [collated] *)

Section Collated.

Implicit Types (c : Collation) (st : Store) (request : nat).

Lemma next_source_destination (r : Request.t) :
  Request.destination (Request.next_source r).2 = Request.destination r.
Proof.
  unfold Request.next_source.
  destruct (Request.downloaded r); [done|].
  by destruct (Request.candidates r !! Request.cursor r).
Qed.

Lemma collated_from_app l1 l2 acc :
  collated_from (l1 ++ l2) acc = collated_from l2 (collated_from l1 acc).
Proof. unfold collated_from. apply foldl_app. Qed.

Lemma collated_from_cons request l acc :
  collated_from (request :: l) acc = collated_from l (collated_body acc request).
Proof. reflexivity. Qed.

(** What one entry does. *)
Lemma collated_body_downloaded c st request :
  Request.downloaded (st request) = true →
  collated_body (c, st) request = (c, st).
Proof. intros H. unfold collated_body. by rewrite H. Qed.

Lemma collated_body_exhausted c st request :
  Request.downloaded (st request) = false →
  (Request.next_source (st request)).1 = None →
  collated_body (c, st) request = (c, <[request := (Request.next_source (st request)).2]> st).
Proof.
  intros Hd Hn. unfold collated_body. rewrite Hd.
  destruct (Request.next_source (st request)) as [o r']. simpl in *. by subst o.
Qed.

Lemma collated_body_candidate c st request source address :
  Request.downloaded (st request) = false →
  (Request.next_source (st request)).1 = Some (source, address) →
  collated_body (c, st) request =
    (<[source := default [] (c !! source)
                 ++ [Nectar.mkRequest address (Request.destination (st request)) request]]> c,
     <[request := (Request.next_source (st request)).2]> st).
Proof.
  intros Hd Hn. unfold collated_body. rewrite Hd.
  pose proof (next_source_destination (st request)) as Hdest.
  destruct (Request.next_source (st request)) as [o r']. simpl in *. subst o. simpl.
  by rewrite fn_lookup_insert, Hdest.
Qed.

(** The loop only ever appends to the job lists. *)
Lemma collated_body_grows acc request source jobs :
  acc.1 !! source = Some jobs →
  ∃ later, (collated_body acc request).1 !! source = Some (jobs ++ later).
Proof.
  destruct acc as [c st]. intros Hc. simpl in Hc.
  destruct (Request.downloaded (st request)) eqn:Hd.
  { rewrite collated_body_downloaded by done. exists []. by rewrite app_nil_r. }
  destruct (Request.next_source (st request)).1 as [[source' address]|] eqn:Hn.
  - rewrite (collated_body_candidate c st request source' address) by done. simpl.
    destruct (decide (source' = source)) as [->|Hne].
    + rewrite lookup_insert_eq, Hc. simpl. by eexists.
    + rewrite lookup_insert_ne by done. exists []. by rewrite app_nil_r.
  - rewrite collated_body_exhausted by done. exists []. by rewrite app_nil_r.
Qed.

Lemma collated_from_grows l acc source jobs :
  acc.1 !! source = Some jobs →
  ∃ later, (collated_from l acc).1 !! source = Some (jobs ++ later).
Proof.
  revert acc jobs. induction l as [|request l IH]; intros acc jobs Hc.
  - exists []. by rewrite app_nil_r.
  - rewrite collated_from_cons.
    destruct (collated_body_grows acc request source jobs Hc) as [later1 H1].
    destruct (IH _ _ H1) as [later2 H2].
    exists (later1 ++ later2). by rewrite app_assoc.
Qed.

(** Every job the loop adds refers to an entry of the list. *)
Lemma collated_body_data acc request source :
  ∃ later,
    default [] ((collated_body acc request).1 !! source)
      = default [] (acc.1 !! source) ++ later
    ∧ Forall (λ j, Nectar.data j = request) later.
Proof.
  destruct acc as [c st].
  destruct (Request.downloaded (st request)) eqn:Hd.
  { rewrite collated_body_downloaded by done. exists []. by rewrite app_nil_r. }
  destruct (Request.next_source (st request)).1 as [[source' address]|] eqn:Hn.
  - rewrite (collated_body_candidate c st request source' address) by done. simpl.
    destruct (decide (source' = source)) as [->|Hne].
    + rewrite lookup_insert_eq. simpl. eexists. split; [done|]. by constructor.
    + rewrite lookup_insert_ne by done. exists []. by rewrite app_nil_r.
  - rewrite collated_body_exhausted by done. exists []. by rewrite app_nil_r.
Qed.

Lemma collated_from_data l acc source :
  ∃ later,
    default [] ((collated_from l acc).1 !! source)
      = default [] (acc.1 !! source) ++ later
    ∧ Forall (λ j, Nectar.data j ∈ l) later.
Proof.
  revert acc. induction l as [|request l IH]; intros acc.
  - exists []. by rewrite app_nil_r.
  - rewrite collated_from_cons.
    destruct (collated_body_data acc request source) as (later1 & H1 & F1).
    destruct (IH (collated_body acc request)) as (later2 & H2 & F2).
    exists (later1 ++ later2). rewrite H2, H1, app_assoc. split; [done|].
    apply Forall_app. split.
    + eapply Forall_impl; [exact F1|]. intros j ->. apply list_elem_of_here.
    + eapply Forall_impl; [exact F2|]. intros j Hj. by apply list_elem_of_further.
Qed.

(** Entries for other requests leave a request alone. *)
Lemma collated_body_other acc request r :
  r ≠ request → (collated_body acc request).2 r = acc.2 r.
Proof.
  destruct acc as [c st]. intros Hne. unfold collated_body. simpl.
  destruct (Request.downloaded (st request)); [done|].
  destruct (Request.next_source (st request)) as [[src|] r']; simpl;
    by rewrite fn_lookup_insert_ne.
Qed.

Lemma collated_from_other l acc r :
  r ∉ l → (collated_from l acc).2 r = acc.2 r.
Proof.
  revert acc. induction l as [|request l IH]; intros acc Hnot; [done|].
  rewrite collated_from_cons.
  apply not_elem_of_cons in Hnot as [Hne Hnot].
  rewrite IH by done. by apply collated_body_other.
Qed.

(** C2. For every request list, [collated] treats each entry as follows,
    where the request is looked at in the state in which the loop
    reaches the entry (its state at the call when the request is listed
    once): a request with [downloaded] set is skipped and no candidate is
    consumed; a request whose [next_source()] returns [None] is skipped;
    every other request adds exactly one job to the mapping, under the
    source of its next candidate, carrying the address of that candidate,
    the destination of the request and a reference to the request, and the
    job is in the mapping that is returned. *)
Theorem collated_entry pre request post st :
  let before := collated_from pre (∅, st) in
  let after := collated_body before request in
  let result := collated (pre ++ request :: post) st in
  let r := before.2 request in
  result = collated_from post after
  ∧ (request ∉ pre → r = st request)
  ∧ (Request.downloaded r = true → after = before)
  ∧ (Request.downloaded r = false → (Request.next_source r).1 = None →
       after.1 = before.1)
  ∧ (Request.downloaded r = false →
     ∀ source address, (Request.next_source r).1 = Some (source, address) →
       let job := Nectar.mkRequest address (Request.destination r) request in
       after.1 = <[source := default [] (before.1 !! source) ++ [job]]> before.1
       ∧ after.2 request = (Request.next_source r).2
       ∧ ∃ later,
           result.1 !! source = Some (default [] (before.1 !! source) ++ job :: later))
  ∧ (NoDup (pre ++ request :: post) →
     ∀ source jobs j,
       result.1 !! source = Some jobs → j ∈ jobs → Nectar.data j = request →
       Request.downloaded r = false
       ∧ ∃ address,
           (Request.next_source r).1 = Some (source, address)
           ∧ j = Nectar.mkRequest address (Request.destination r) request
           ∧ ∃ earlier later,
               jobs = earlier ++ j :: later
               ∧ Forall (λ j', Nectar.data j' ≠ request) (earlier ++ later)).
Proof.
  intros before after result r. split_and!.
  - unfold result, collated. by rewrite collated_from_app, collated_from_cons.
  - intros Hnot. unfold r, before. by rewrite collated_from_other.
  - intros Hd. unfold after. destruct before as [c st1]. by apply collated_body_downloaded.
  - intros Hd Hn. unfold after. destruct before as [c st1].
    by rewrite collated_body_exhausted.
  - intros Hd source address Hn job.
    assert (Hafter : after =
      (<[source := default [] (before.1 !! source) ++ [job]]> before.1,
       <[request := (Request.next_source r).2]> before.2)).
    { unfold after, job, r. destruct before as [c st1].
      by apply collated_body_candidate. }
    split_and!.
    + by rewrite Hafter.
    + rewrite Hafter. simpl. by rewrite fn_lookup_insert.
    + assert (Hres : result = collated_from post after).
      { unfold result, collated. by rewrite collated_from_app, collated_from_cons. }
      destruct (collated_from_grows post after source
                  (default [] (before.1 !! source) ++ [job])) as [later Hl].
      { rewrite Hafter. simpl. by rewrite lookup_insert_eq. }
      exists later. rewrite Hres, Hl. by rewrite <- app_assoc.
  - intros Hnodup source jobs j Hjobs Hj Hdata.
    apply NoDup_app in Hnodup as (_ & Hpre & Hpost).
    assert (Hnpre : request ∉ pre).
    { intros Hin. apply (Hpre _ Hin), list_elem_of_here. }
    apply NoDup_cons in Hpost as [Hnpost _].
    assert (Hres : result = collated_from post after).
    { unfold result, collated. by rewrite collated_from_app, collated_from_cons. }
    destruct (collated_from_data pre (∅, st) source) as (old & Hold & Fold).
    fold before in Hold. simpl in Hold. rewrite lookup_empty in Hold. simpl in Hold.
    destruct (collated_from_data post after source) as (later & Hlater & Flater).
    rewrite <- Hres, Hjobs in Hlater. simpl in Hlater.
    assert (Fold' : Forall (λ j', Nectar.data j' ≠ request) old).
    { eapply Forall_impl; [exact Fold|]. intros j' Hj' Heq. simpl in Hj'. by rewrite Heq in Hj'. }
    assert (Flater' : Forall (λ j', Nectar.data j' ≠ request) later).
    { eapply Forall_impl; [exact Flater|]. intros j' Hj' Heq. simpl in Hj'. by rewrite Heq in Hj'. }
    assert (Hnot : ∀ l, Forall (λ j', Nectar.data j' ≠ request) l → j ∉ l).
    { intros l Hl Hin. rewrite Forall_forall in Hl. by apply (Hl j Hin). }
    destruct (Request.downloaded r) eqn:Hd.
    { exfalso. assert (Hab : after = before).
      { unfold after. destruct before as [c st1]. by apply collated_body_downloaded. }
      rewrite Hab, Hold in Hlater. subst jobs.
      apply elem_of_app in Hj as [Hj|Hj];
        [exact (Hnot _ Fold' Hj) | exact (Hnot _ Flater' Hj)]. }
    split; [done|].
    destruct (Request.next_source r).1 as [[source' address]|] eqn:Hn.
    2:{ exfalso. assert (Hab : after.1 = before.1).
        { unfold after. destruct before as [c st1]. by rewrite collated_body_exhausted. }
        rewrite Hab, Hold in Hlater. subst jobs.
        apply elem_of_app in Hj as [Hj|Hj];
        [exact (Hnot _ Fold' Hj) | exact (Hnot _ Flater' Hj)]. }
    assert (Hafter : after.1 =
      <[source' := default [] (before.1 !! source')
                   ++ [Nectar.mkRequest address (Request.destination r) request]]> before.1).
    { unfold after, r. destruct before as [c st1].
      by rewrite (collated_body_candidate c st1 request source' address). }
    rewrite Hafter in Hlater.
    destruct (decide (source' = source)) as [->|Hne].
    2:{ exfalso. rewrite lookup_insert_ne, Hold in Hlater by done. subst jobs.
        apply elem_of_app in Hj as [Hj|Hj];
        [exact (Hnot _ Fold' Hj) | exact (Hnot _ Flater' Hj)]. }
    rewrite lookup_insert_eq in Hlater. simpl in Hlater. rewrite Hold in Hlater.
    subst jobs. exists address. split; [done|].
    assert (j = Nectar.mkRequest address (Request.destination r) request) as Hjeq.
    { apply elem_of_app in Hj as [Hj|Hj]; [|destruct (Hnot _ Flater' Hj)].
      apply elem_of_app in Hj as [Hj|Hj]; [destruct (Hnot _ Fold' Hj)|].
      by apply list_elem_of_singleton in Hj. }
    split; [done|]. exists old, later. rewrite Hjeq, <- app_assoc. split; [done|].
    by apply Forall_app.
Qed.

End Collated.

(** ** Properties of [refresh] *)

Section Refresh.

Context {Listener Catalog : Type} `{!Environment Listener Catalog}.

Implicit Types (s : State Listener Catalog) (t : list Event).
Implicit Types (items : list (string * ContentSource)) (reports : list RefreshReport).

(** The loop, case by case. *)

Lemma refresh_loop_cancelled force source_id source items reports s t :
  cancelled s = true →
  refresh_loop force ((source_id, source) :: items) reports s t = (Returned None, s, t).
Proof. intros Hc. simpl. unfold bind, gets, ret. by rewrite Hc. Qed.

Lemma refresh_loop_fresh force source_id source items reports s t :
  cancelled s = false →
  force || negb (has_entries (catalog s) source_id) = false →
  refresh_loop force ((source_id, source) :: items) reports s t
  = refresh_loop force items reports s t.
Proof. intros Hc Hf. simpl. unfold bind, gets. by rewrite Hc, Hf. Qed.

Lemma refresh_loop_refreshed force source_id source items reports s t report s2 :
  cancelled s = false →
  force || negb (has_entries (catalog s) source_id) = true →
  source_refresh source s = (Ok report, s2) →
  refresh_loop force ((source_id, source) :: items) reports s t
  = refresh_loop force items (reports ++ report) s2 (t ++ [SourceRefresh source_id]).
Proof.
  intros Hc Hf Hr. simpl. unfold bind, gets, try_except, emit, external, ret.
  by rewrite Hc, Hf, Hr.
Qed.

Lemma refresh_loop_failed force source_id source items reports s t e s2 text :
  cancelled s = false →
  force || negb (has_entries (catalog s) source_id) = true →
  source_refresh source s = (Raise e, s2) →
  str e = Ok text →
  refresh_loop force ((source_id, source) :: items) reports s t
  = refresh_loop force items (reports ++ [mkRefreshReport source_id "" [text]]) s2
      (t ++ [SourceRefresh source_id; LogError source_id e]).
Proof.
  intros Hc Hf Hr Hstr. simpl. unfold bind, gets, try_except, emit, external, ret.
  rewrite Hc, Hf, Hr. simpl. rewrite Hstr. by rewrite <- app_assoc.
Qed.

(** The handler calls [str(e)] outside any [try]: when that raises, the
    error leaves the loop, with no report added and the remaining sources
    not looked at. *)
Lemma refresh_loop_escapes force source_id source items reports s t e s2 e' :
  cancelled s = false →
  force || negb (has_entries (catalog s) source_id) = true →
  source_refresh source s = (Raise e, s2) →
  str e = Raise e' →
  refresh_loop force ((source_id, source) :: items) reports s t
  = (Raised e', s2, t ++ [SourceRefresh source_id; LogError source_id e]).
Proof.
  intros Hc Hf Hr Hstr. simpl. unfold bind, gets, try_except, emit, external, ret.
  rewrite Hc, Hf, Hr. simpl. rewrite Hstr. by rewrite <- app_assoc.
Qed.

(** However the loop ends, it is not by the loop bound; it only adds to
    the record of calls, none of them a purge; it only adds to the reports;
    and it returns [None] only with the flag set. *)
Lemma refresh_loop_outcome force items reports s t :
  ∃ o s' new,
    refresh_loop force items reports s t = (o, s', t ++ new)
    ∧ (PurgeExpired ∉ new)
    ∧ o ≠ OutOfFuel
    ∧ (∀ rs, o = Returned (Some rs) → reports `prefix_of` rs)
    ∧ (o = Returned None → cancelled s' = true).
Proof.
  revert reports s t. induction items as [|[source_id source] items IH]; intros reports s t.
  - exists (Returned (Some reports)), s, []. rewrite app_nil_r. split_and!; try done.
    + apply not_elem_of_nil.
    + by intros rs [= <-].
  - destruct (cancelled s) eqn:Hc.
    { rewrite refresh_loop_cancelled by done. exists (Returned None), s, [].
      rewrite app_nil_r. split_and!; try done. apply not_elem_of_nil. }
    destruct (force || negb (has_entries (catalog s) source_id)) eqn:Hf.
    2:{ rewrite refresh_loop_fresh by done. apply IH. }
    destruct (source_refresh source s) as [[report|e] s2] eqn:Hr.
    + rewrite (refresh_loop_refreshed _ _ _ _ _ _ _ report s2) by done.
      destruct (IH (reports ++ report) s2 (t ++ [SourceRefresh source_id]))
        as (o & s' & new & Heq & Hp & Hfuel & Hpre & Hnone).
      exists o, s', (SourceRefresh source_id :: new).
      rewrite Heq, <- app_assoc. split_and!; try done.
      * intros [Hx|Hx]%elem_of_cons; [discriminate | done].
      * intros rs Hrs. etrans; [|by apply Hpre]. by apply prefix_app_r.
    + destruct (str e) as [text|e'] eqn:Hstr.
      * rewrite (refresh_loop_failed _ _ _ _ _ _ _ e s2 text) by done.
        destruct (IH (reports ++ [mkRefreshReport source_id "" [text]]) s2
                     (t ++ [SourceRefresh source_id; LogError source_id e]))
          as (o & s' & new & Heq & Hp & Hfuel & Hpre & Hnone).
        exists o, s', (SourceRefresh source_id :: LogError source_id e :: new).
        rewrite Heq, <- app_assoc. split_and!; try done.
        -- intros Hx. apply elem_of_cons in Hx as [Hx|Hx]; [discriminate|].
           apply elem_of_cons in Hx as [Hx|Hx]; [discriminate | done].
        -- intros rs Hrs. etrans; [|by apply Hpre]. by apply prefix_app_r.
      * rewrite (refresh_loop_escapes _ _ _ _ _ _ _ e s2 e') by done.
        exists (Raised e'), s2, [SourceRefresh source_id; LogError source_id e].
        split_and!; try done.
        intros Hx. apply elem_of_cons in Hx as [Hx|Hx]; [discriminate|].
        apply list_elem_of_singleton in Hx. discriminate.
Qed.

Lemma refresh_loop_app force pre post reports s t :
  refresh_loop force (pre ++ post) reports s t
  = (r <- refresh_loop force pre reports ;;
     match r with
     | Some reports' => refresh_loop force post reports'
     | None => ret None
     end) s t.
Proof.
  revert reports s t. induction pre as [|[source_id source] pre IH]; intros reports s t.
  - reflexivity.
  - rewrite <- app_comm_cons.
    destruct (cancelled s) eqn:Hc.
    { unfold bind at 1. by rewrite !refresh_loop_cancelled. }
    destruct (force || negb (has_entries (catalog s) source_id)) eqn:Hf.
    2:{ unfold bind at 1. rewrite !refresh_loop_fresh by done. apply IH. }
    destruct (source_refresh source s) as [[report|e] s2] eqn:Hr.
    + unfold bind at 1.
      rewrite !(refresh_loop_refreshed _ _ _ _ _ _ _ report s2) by done. apply IH.
    + destruct (str e) as [text|e'] eqn:Hstr.
      * unfold bind at 1.
        rewrite !(refresh_loop_failed _ _ _ _ _ _ _ e s2 text) by done. apply IH.
      * unfold bind at 1.
        by rewrite !(refresh_loop_escapes _ _ _ _ _ _ _ e s2 e').
Qed.

Lemma refresh_unfold force s t :
  refresh force s t
  = (r <- refresh_loop force (sources s) [] ;; refresh_end r) (set_cancelled false s) t.
Proof. reflexivity. Qed.

Lemma refresh_end_spec (r : option (list RefreshReport)) s t :
  refresh_end r s t
  = (Returned r,
     match r with
     | Some _ => set_catalog (purge_expired (catalog s)) s
     | None => s
     end,
     match r with
     | Some _ => t ++ [PurgeExpired]
     | None => t
     end).
Proof. by destruct r. Qed.

(** With sources that leave the flag alone, a loop entered with the flag
    clear never leaves through the bare [return]. *)
Lemma refresh_loop_not_stopped force items reports s t :
  (∀ source s1, cancelled (source_refresh source s1).2 = cancelled s1) →
  cancelled s = false →
  outcome (refresh_loop force items reports s t) ≠ Returned None.
Proof.
  intros Henv. revert reports s t.
  induction items as [|[source_id source] items IH]; intros reports s t Hc.
  - done.
  - destruct (force || negb (has_entries (catalog s) source_id)) eqn:Hf.
    2:{ rewrite refresh_loop_fresh by done. by apply IH. }
    pose proof (Henv source s) as Hkeep.
    destruct (source_refresh source s) as [[report|e] s2] eqn:Hr; simpl in Hkeep.
    + rewrite (refresh_loop_refreshed _ _ _ _ _ _ _ report s2) by done.
      apply IH. congruence.
    + destruct (str e) as [text|e'] eqn:Hstr.
      * rewrite (refresh_loop_failed _ _ _ _ _ _ _ e s2 text) by done.
        apply IH. congruence.
      * by rewrite (refresh_loop_escapes _ _ _ _ _ _ _ e s2 e').
Qed.

(** With sources that leave the flag alone and raise only exceptions of
    which [str] returns the text, a loop entered with the flag clear runs
    to its end. *)
Lemma refresh_loop_completes force items reports s t :
  (∀ source s1, cancelled (source_refresh source s1).2 = cancelled s1) →
  (∀ source s1 e, (source_refresh source s1).1 = Raise e → ∃ text, str e = Ok text) →
  cancelled s = false →
  ∃ rs s' t',
    refresh_loop force items reports s t = (Returned (Some rs), s', t')
    ∧ cancelled s' = false.
Proof.
  intros Henv Hstr. revert reports s t.
  induction items as [|[source_id source] items IH]; intros reports s t Hc.
  - by exists reports, s, t.
  - destruct (force || negb (has_entries (catalog s) source_id)) eqn:Hf.
    2:{ rewrite refresh_loop_fresh by done. by apply IH. }
    pose proof (Henv source s) as Hkeep. pose proof (Hstr source s) as Htext.
    destruct (source_refresh source s) as [[report|e] s2] eqn:Hr;
      simpl in Hkeep, Htext.
    + rewrite (refresh_loop_refreshed _ _ _ _ _ _ _ report s2) by done.
      apply IH. congruence.
    + destruct (Htext e eq_refl) as [text He].
      rewrite (refresh_loop_failed _ _ _ _ _ _ _ e s2 text) by done.
      apply IH. congruence.
Qed.

(** A pass that finds the flag set at the check of a source leaves the
    method through the bare [return]: the reports collected so far are
    dropped and the catalog is not purged. *)
Lemma refresh_cut_short force pre source_id source post s0 t0 reports s t :
  sources s0 = pre ++ (source_id, source) :: post →
  refresh_loop force pre [] (set_cancelled false s0) t0 = (Returned (Some reports), s, t) →
  cancelled s = true →
  refresh force s0 t0 = (Returned None, s, t).
Proof.
  intros Hsrc Hpre Hc. rewrite refresh_unfold, Hsrc. unfold bind at 1.
  rewrite refresh_loop_app. unfold bind at 1. rewrite Hpre.
  by rewrite refresh_loop_cancelled.
Qed.

(** X18. When the [refresh()] of a registered source raises during a
    refresh pass an exception of which [str] returns the text, the
    exception is caught: the pass goes on with the remaining sources, with
    a report for that source carrying that text added to the reports, and
    the report is in every list that [refresh] returns. *)
Theorem refresh_failure_contained
    force pre source_id source post s0 t0 reports s t e s2 text :
  sources s0 = pre ++ (source_id, source) :: post →
  refresh_loop force pre [] (set_cancelled false s0) t0 = (Returned (Some reports), s, t) →
  cancelled s = false →
  force || negb (has_entries (catalog s) source_id) = true →
  source_refresh source s = (Raise e, s2) →
  str e = Ok text →
  let report := mkRefreshReport source_id "" [text] in
  refresh force s0 t0
    = (r <- refresh_loop force post (reports ++ [report]) ;; refresh_end r)
        s2 (t ++ [SourceRefresh source_id; LogError source_id e])
  ∧ ∀ rs s' t', refresh force s0 t0 = (Returned (Some rs), s', t') → report ∈ rs.
Proof.
  intros Hsrc Hpre Hc Hf Hr Hstr report.
  assert (Heq : refresh force s0 t0
    = (r <- refresh_loop force post (reports ++ [report]) ;; refresh_end r)
        s2 (t ++ [SourceRefresh source_id; LogError source_id e])).
  { rewrite refresh_unfold, Hsrc. unfold bind at 1.
    rewrite refresh_loop_app. unfold bind at 1. rewrite Hpre.
    rewrite (refresh_loop_failed _ _ _ _ _ _ _ e s2 text) by done. reflexivity. }
  split; [exact Heq|]. rewrite Heq. unfold bind.
  destruct (refresh_loop_outcome force post (reports ++ [report]) s2
              (t ++ [SourceRefresh source_id; LogError source_id e]))
    as (o & s1 & new & Hloop & _ & _ & Hprefix & _).
  rewrite Hloop. intros rs s' t'.
  destruct o as [r|e'|]; [|discriminate..].
  rewrite refresh_end_spec. intros [= -> _ _].
  destruct (Hprefix rs eq_refl) as [k ->].
  apply elem_of_app. left. apply elem_of_app. right. apply list_elem_of_here.
Qed.


(** C9. [refresh()] clears the cancellation flag when it is entered, and so
    does [download()]: a [cancel()] issued before either is called changes
    nothing of what the call does, and where nothing sets the flag during
    the pass, the pass is never stopped early by the flag (it does not
    leave through the bare [return]); where in addition [str] returns the
    text of every exception that the sources raise, the pass runs to its
    end. *)
Theorem cancel_before_pass_is_cleared :
  (∀ force s t, (cancel ;; refresh force) s t = refresh force s t)
  ∧ (∀ fuel d request_list s t,
       (cancel ;; download fuel d request_list) s t = download fuel d request_list s t)
  ∧ (∀ force s t,
       (∀ source s1, cancelled (source_refresh source s1).2 = cancelled s1) →
       outcome ((cancel ;; refresh force) s t) ≠ Returned None
       ∧ ((∀ source s1 e,
             (source_refresh source s1).1 = Raise e → ∃ text, str e = Ok text) →
          ∃ rs s' t', (cancel ;; refresh force) s t = (Returned (Some rs), s', t'))).
Proof.
  split_and!.
  - reflexivity.
  - reflexivity.
  - intros force s t Henv.
    change ((cancel ;; refresh force) s t) with (refresh force (set_cancelled true s) t).
    rewrite refresh_unfold. unfold bind. split.
    + pose proof (refresh_loop_not_stopped force (sources (set_cancelled true s)) []
                    (set_cancelled false (set_cancelled true s)) t Henv eq_refl) as Hnot.
      destruct (refresh_loop force (sources (set_cancelled true s)) []
                  (set_cancelled false (set_cancelled true s)) t) as [[o s1] t1].
      destruct o as [[rs|]|e|]; try done.
    + intros Hstr.
      destruct (refresh_loop_completes force (sources (set_cancelled true s)) []
                  (set_cancelled false (set_cancelled true s)) t Henv Hstr eq_refl)
        as (rs & s' & t' & Hloop & _).
      rewrite Hloop, refresh_end_spec. by eexists _, _, _.
Qed.

End Refresh.

(** ** Properties of [download] *)

Section Download.

Context {Listener Catalog : Type} `{!Environment Listener Catalog}.

Implicit Types (s : State Listener Catalog) (t : list Event) (c : Collation).

Lemma script_returns d (script : list TransportAction) s t :
  ∃ s' new, for_each script (deliver d) s t = (Returned tt, s', t ++ new).
Proof.
  revert s t. induction script as [|a script IH]; intros s t.
  - exists s, []. by rewrite app_nil_r.
  - simpl. unfold bind.
    destruct (deliver_returns d a s t) as (s1 & new1 & ->).
    destruct (IH s1 (t ++ new1)) as (s2 & new2 & ->).
    exists s2, (new1 ++ new2). by rewrite app_assoc.
Qed.

(** A dispatch is recorded before anything the transport does. *)
Lemma downloader_download_calls d nectar_list s t :
  ∃ o s' new,
    downloader_download d nectar_list s t
    = (o, s', t ++ DownloaderDownload d nectar_list :: new).
Proof.
  unfold downloader_download, bind, emit, gets, external.
  destruct (script_returns d (transport d nectar_list s).1 s
              (t ++ [DownloaderDownload d nectar_list])) as (s' & new & ->).
  rewrite <- app_assoc. simpl.
  destruct (transport d nectar_list s).2; by eexists _, _, _.
Qed.

Lemma dispatch_first c source nectar_list items s t :
  map_to_list c = (source, nectar_list) :: items →
  ∃ o s' new,
    dispatch c s t
    = (o, s', t ++ DownloaderDownload (downloader source) nectar_list :: new).
Proof.
  intros Hitems. unfold dispatch. rewrite Hitems. clear Hitems. simpl. unfold bind.
  destruct (downloader_download_calls (downloader source) nectar_list s t)
    as (o & s1 & new1 & ->).
  destruct o as [[]|e|]; [|by eexists _, _, _..].
  assert (Hrest : ∀ s t, ∃ o s' new,
    for_each items
      (λ '(source, nectar_list), downloader_download (downloader source) nectar_list) s t
    = (o, s', t ++ new)).
  { clear. induction items as [|[src jobs] items IH]; intros s t.
    - exists (Returned tt), s, []. by rewrite app_nil_r.
    - simpl. unfold bind.
      destruct (downloader_download_calls (downloader src) jobs s t)
        as (o & s1 & new1 & ->).
      destruct o as [[]|e|]; [|by eexists _, _, _..].
      destruct (IH s1 (t ++ DownloaderDownload (downloader src) jobs :: new1))
        as (o2 & s2 & new2 & ->).
      exists o2, s2, (DownloaderDownload (downloader src) jobs :: new1 ++ new2).
      by rewrite <- app_assoc. }
  destruct (Hrest s1 (t ++ DownloaderDownload (downloader source) nectar_list :: new1))
    as (o2 & s2 & new2 & ->).
  exists o2, s2, (new1 ++ new2). by rewrite <- app_assoc.
Qed.

(** The loop at a round boundary, case by case. *)

Lemma download_loop_cancelled fuel request_list s t :
  cancelled s = true →
  download_loop (S fuel) request_list s t = (Returned tt, s, t).
Proof. intros Hc. simpl. unfold bind, gets, ret. by rewrite Hc. Qed.

Lemma download_loop_empty fuel request_list s t :
  cancelled s = false →
  (collated request_list (requests s)).1 = ∅ →
  download_loop (S fuel) request_list s t
  = (Returned tt, set_requests (collated request_list (requests s)).2 s, t).
Proof.
  intros Hc He. simpl. unfold bind, gets, run_collated, ret. rewrite Hc.
  destruct (collated request_list (requests s)) as [c st]. simpl in *. subst c.
  by rewrite decide_True.
Qed.

Lemma download_loop_round fuel request_list s t :
  cancelled s = false →
  (collated request_list (requests s)).1 ≠ ∅ →
  download_loop (S fuel) request_list s t
  = (dispatch (collated request_list (requests s)).1 ;; download_loop fuel request_list)
      (set_requests (collated request_list (requests s)).2 s) t.
Proof.
  intros Hc He. simpl. unfold bind at 1 2. unfold gets, run_collated. rewrite Hc.
  destruct (collated request_list (requests s)) as [c st]. simpl in *.
  by rewrite decide_False.
Qed.

(** C4. At a round boundary the dispatch loop of [download()] exits
    exactly when the cancellation flag is set or the collation of the round
    is empty.  With the flag set it returns at once: nothing more is
    dispatched to any downloader and no exception is raised; in
    particular a flag set during a round ends the loop before the next
    round.  With the flag clear and a collation that is not empty, a batch
    is dispatched and the loop goes on.  A run of the loop that returns
    has ended at a boundary where one of the two conditions held. *)
Theorem download_loop_exit fuel request_list s t :
  let c := collated request_list (requests s) in
  (cancelled s = true →
     download_loop (S fuel) request_list s t = (Returned tt, s, t))
  ∧ (cancelled s = false → c.1 = ∅ →
       download_loop (S fuel) request_list s t = (Returned tt, set_requests c.2 s, t))
  ∧ (cancelled s = false → c.1 ≠ ∅ →
       download_loop (S fuel) request_list s t
       = (dispatch c.1 ;; download_loop fuel request_list) (set_requests c.2 s) t
       ∧ (∃ source nectar_list o s1 new,
            c.1 !! source = Some nectar_list
            ∧ dispatch c.1 (set_requests c.2 s) t
              = (o, s1, t ++ DownloaderDownload (downloader source) nectar_list :: new))
       ∧ (∀ s1 t1,
            dispatch c.1 (set_requests c.2 s) t = (Returned tt, s1, t1) →
            cancelled s1 = true →
            download_loop (S (S fuel)) request_list s t = (Returned tt, s1, t1)))
  ∧ (∀ s' t',
       download_loop fuel request_list s t = (Returned tt, s', t') →
       ∃ sb,
         download_loop 1 request_list sb t' = (Returned tt, s', t')
         ∧ (cancelled sb = true ∨ (collated request_list (requests sb)).1 = ∅)).
Proof.
  intros c. split_and!.
  - apply download_loop_cancelled.
  - apply download_loop_empty.
  - intros Hc He. split_and!.
    + by apply download_loop_round.
    + destruct (map_to_list c.1) as [|[source nectar_list] items] eqn:Hitems.
      { by apply map_to_list_empty_iff in Hitems. }
      destruct (dispatch_first c.1 source nectar_list items (set_requests c.2 s) t Hitems)
        as (o & s1 & new & Hd).
      exists source, nectar_list, o, s1, new. split; [|done].
      apply elem_of_map_to_list. rewrite Hitems. apply list_elem_of_here.
    + intros s1 t1 Hd Hc1.
      rewrite download_loop_round by done. fold c. unfold bind. rewrite Hd.
      by apply download_loop_cancelled.
  - clear c. revert s t. induction fuel as [|fuel IH]; intros s t s' t' Hrun.
    { discriminate. }
    destruct (cancelled s) eqn:Hc.
    { rewrite download_loop_cancelled in Hrun by done. injection Hrun as <- <-.
      exists s. split; [by apply download_loop_cancelled | by left]. }
    destruct (decide ((collated request_list (requests s)).1 = ∅)) as [He|He].
    { rewrite download_loop_empty in Hrun by done. injection Hrun as <- <-.
      exists s. split; [by apply download_loop_empty | by right]. }
    rewrite download_loop_round in Hrun by done. unfold bind in Hrun.
    destruct (dispatch _ _ t) as [[[[]|e|] s1] t1]; [|discriminate..].
    by apply (IH s1 t1).
Qed.

End Download.

(** ** The properties at work on the concrete deployment *)



Example download_failed_silent :
  let s := Scenario.state Scenario.registry (Some Scenario.Faulty) false in
  let r := download_failed Scenario.on_a (Scenario.failure 0) s [] in
  outcome r = Returned tt
  ∧ calls r = []
  ∧ Request.errors (requests (final r) 0) = ["404"].
Proof. intros s r. by vm_compute. Qed.

Lemma collated_entry_witness :
  Request.downloaded (Scenario.store 0) = false
  ∧ (Request.next_source (Scenario.store 0)).1 = Some (Scenario.primary, "http://origin/0")
  ∧ (collated [2; 1; 0; 3] Scenario.store).1 !! Scenario.primary
    = Some [Nectar.mkRequest "http://origin/0" "/tmp/0" 0]
  ∧ ∃ later,
      (collated [2; 1; 0; 3] Scenario.store).1 !! Scenario.primary
      = Some (Nectar.mkRequest "http://origin/0" "/tmp/0" 0 :: later).
Proof.
  split_and!; [by vm_compute | by vm_compute | by vm_compute |].
  destruct (collated_entry [2; 1] 0 [3] Scenario.store) as (_ & _ & _ & _ & Hjob & _).
  destruct (Hjob eq_refl Scenario.primary "http://origin/0" eq_refl)
    as (_ & _ & later & Hl).
  exists later. exact Hl.
Defined.

Lemma refresh_failure_witness :
  let s0 := Scenario.state Scenario.small_registry None true in
  let s := set_cancelled false s0 in
  let report := mkRefreshReport "bad" "" ["connection refused"] in
  sources s0 = [] ++ ("bad", AlternateSource "bad" 3) :: [("b", Scenario.source_b)]
  ∧ refresh_loop false [] [] s [] = (Returned (Some []), s, [])
  ∧ cancelled s = false
  ∧ false || negb (has_entries (catalog s) "bad") = true
  ∧ source_refresh (AlternateSource "bad" 3) s = (Raise (Exc "connection refused"), s)
  ∧ str (Exc "connection refused") = Ok "connection refused"
  ∧ outcome (refresh false s0 [])
    = Returned (Some [report; mkRefreshReport "b" "http://mirror/" []])
  ∧ ∀ rs s' t', refresh false s0 [] = (Returned (Some rs), s', t') → report ∈ rs.
Proof.
  intros s0 s report.
  split_and!; [reflexivity | reflexivity | reflexivity | reflexivity | reflexivity
              | reflexivity | by vm_compute |].
  apply (refresh_failure_contained false [] "bad" (AlternateSource "bad" 3)
           [("b", Scenario.source_b)] s0 [] [] s [] (Exc "connection refused") s
           "connection refused");
    reflexivity.
Defined.


(** Request 3 goes to source "b"; while "b" works, the warehouse is
    cancelled, and the loop ends at the next round boundary. *)
Lemma download_loop_exit_witness :
  let s := Scenario.state Scenario.registry (Some Scenario.Quiet) false in
  let c := collated [3] (requests s) in
  let round := dispatch c.1 (set_requests c.2 s) [] in
  cancelled s = false
  ∧ c.1 ≠ ∅
  ∧ cancelled (final round) = true
  ∧ calls round
    = [DownloaderDownload (SourceDownloader "b") [Nectar.mkRequest "http://b/3" "/tmp/3" 3];
       Notified Started 3; Notified Succeeded 3]
  ∧ download_loop 5 [3] s [] = (Returned tt, final round, calls round).
Proof.
  intros s c round.
  assert (Hne : c.1 ≠ ∅).
  { intros Heq. apply (f_equal (λ m : Collation, m !! Scenario.source_b)) in Heq.
    vm_compute in Heq. discriminate. }
  split_and!; [reflexivity | exact Hne | by vm_compute | by vm_compute |].
  destruct (download_loop_exit 3 [3] s []) as (_ & _ & Hround & _).
  destruct (Hround eq_refl Hne) as (_ & _ & Hcancel).
  apply Hcancel; by vm_compute.
Defined.

(** C3. Source "garbled" fails with an exception of which [str] raises.
    The handler catches the exception and logs it, and then its own
    [str(e)] raises out of [refresh]: no list of reports is returned, no
    report for "garbled" is added, source "b", which is next in the
    registry and has no catalog entries, is not refreshed, and
    [purge_expired()] is not called. *)
Theorem refresh_unprintable_failure_escapes :
  let s0 := Scenario.state Scenario.garbled_registry None false in
  let failure := Unprintable Scenario.encode_error in
  let r := @refresh _ _ Scenario.garbled false s0 [] in
  @source_refresh _ _ Scenario.garbled (AlternateSource "garbled" 3) (set_cancelled false s0)
  = (Raise failure, set_cancelled false s0)
  ∧ str failure = Raise Scenario.encode_error
  ∧ @has_entries _ _ Scenario.garbled (catalog s0) "b" = false
  ∧ outcome r = Raised Scenario.encode_error
  ∧ (∀ rs, outcome r ≠ Returned (Some rs))
  ∧ calls r = [SourceRefresh "garbled"; LogError "garbled" failure]
  ∧ (SourceRefresh "b" ∉ calls r)
  ∧ (PurgeExpired ∉ calls r).
Proof.
  intros s0 failure r.
  assert (Hcalls : calls r = [SourceRefresh "garbled"; LogError "garbled" failure])
    by by vm_compute.
  split_and!; [reflexivity | reflexivity | reflexivity | by vm_compute | | exact Hcalls | |].
  - intros rs. by vm_compute.
  - rewrite Hcalls. intros Hx. apply elem_of_cons in Hx as [Hx|Hx]; [discriminate|].
    apply list_elem_of_singleton in Hx. discriminate.
  - rewrite Hcalls. intros Hx. apply elem_of_cons in Hx as [Hx|Hx]; [discriminate|].
    apply list_elem_of_singleton in Hx. discriminate.
Qed.

(** C5. The pass over "bad", "slow" and "b" collects two reports, and the
    flag is set while "slow" is refreshed; at the check for "b" the method
    returns [None] instead of the two reports. *)
Theorem refresh_cancelled_mid_loop_returns_None :
  let s0 := Scenario.state Scenario.registry None false in
  let collected :=
    [mkRefreshReport "bad" "" ["connection refused"];
     mkRefreshReport "slow" "http://slow/" []] in
  let loop := refresh_loop false (take 2 Scenario.registry) [] s0 [] in
  outcome loop = Returned (Some collected)
  ∧ cancelled (final loop) = true
  ∧ outcome (refresh false s0 []) = Returned None
  ∧ outcome (refresh false s0 []) ≠ Returned (Some collected).
Proof. intros s0 collected loop. split_and!; by vm_compute. Qed.




Lemma download_succeeded_witness :
  let s := Scenario.state Scenario.registry (Some Scenario.Quiet) false in
  cancelled s = false
  ∧ cancelled (set_cancelled true s) = true
  ∧ download_succeeded Scenario.on_a (Scenario.success 0) (set_cancelled true s) []
    = (Returned tt, set_cancelled true s, [DownloaderCancel Scenario.on_a])
  ∧ download_succeeded Scenario.on_a (Scenario.success 0) s []
    = (Returned tt, mark_downloaded 0 s, [Notified Succeeded 0])
  ∧ Request.downloaded (requests (mark_downloaded 0 s) 0) = true.
Proof.
  intros s. split_and!.
  - reflexivity.
  - reflexivity.
  - exact (proj1 (download_succeeded_spec
                    Scenario.on_a (Scenario.success 0) (set_cancelled true s) []) eq_refl).
  - exact (proj2 (proj2 (proj2 (download_succeeded_spec
                                  Scenario.on_a (Scenario.success 0) s []) eq_refl))).
  - exact (proj1 (proj2 (download_succeeded_spec
                           Scenario.on_a (Scenario.success 0) s []) eq_refl)).
Defined.

(** With sources that leave the flag alone and fail with a message that
    [str] returns, a pass started after a [cancel()] runs to its end. *)
Lemma cancel_before_pass_witness :
  (∀ source s1,
      cancelled (@source_refresh _ _ Scenario.calm source s1).2 = cancelled s1)
  ∧ (∀ source s1 e,
       (@source_refresh _ _ Scenario.calm source s1).1 = Raise e → ∃ text, str e = Ok text)
  ∧ outcome ((cancel ;; @refresh _ _ Scenario.calm true)
               (Scenario.state Scenario.small_registry None false) []) ≠ Returned None
  ∧ ∃ rs s' t',
      (cancel ;; @refresh _ _ Scenario.calm true)
        (Scenario.state Scenario.small_registry None false) []
      = (Returned (Some rs), s', t').
Proof.
  assert (Hcalm : ∀ source s1,
             cancelled (@source_refresh _ _ Scenario.calm source s1).2 = cancelled s1).
  { intros [i p|d] s1; simpl; [|reflexivity].
    unfold Scenario.calm_source_refresh. by destruct (String.eqb i "bad"). }
  assert (Hstr : ∀ source s1 e,
             (@source_refresh _ _ Scenario.calm source s1).1 = Raise e
             → ∃ text, str e = Ok text).
  { intros [i p|d] s1 e; simpl; [|discriminate].
    unfold Scenario.calm_source_refresh.
    destruct (String.eqb i "bad"); [|discriminate]. intros [= <-]. by eexists. }
  pose proof (proj2 (proj2 (@cancel_before_pass_is_cleared _ _ Scenario.calm)) true
                (Scenario.state Scenario.small_registry None false) [] Hcalm)
    as [Hnot Hruns].
  split_and!; [exact Hcalm | exact Hstr | exact Hnot | exact (Hruns Hstr)].
Defined.

(** The listener raises when told that request 0 has succeeded: the
    request stays downloaded. *)
Lemma request_updated_witness :
  let s := Scenario.state Scenario.registry (Some Scenario.Faulty) false in
  cancelled s = false
  ∧ listener s = Some Scenario.Faulty
  ∧ listener_call Scenario.Faulty Succeeded 0 (mark_downloaded 0 s)
    = (Raise (Exc "listener failed"), mark_downloaded 0 s)
  ∧ outcome (download_succeeded Scenario.on_a (Scenario.success 0) s []) = Returned tt
  ∧ Request.downloaded
      (requests (final (download_succeeded Scenario.on_a (Scenario.success 0) s [])) 0)
    = true.
Proof.
  intros s.
  destruct (request_updated_before_listener
              Scenario.on_a (Scenario.success 0) s [] eq_refl)
    as (_ & _ & Hraise & _).
  destruct (Hraise Scenario.Faulty (Exc "listener failed") (mark_downloaded 0 s)
              eq_refl eq_refl eq_refl) as [Hret Hdone].
  split_and!; [reflexivity | reflexivity | reflexivity | exact Hret | exact Hdone].
Defined.

(** ** More on [collated]: what the jobs are and what happens to the requests *)

Section CollatedJobs.

Implicit Types (c : Collation) (st : Store) (request : nat).

Lemma moves_forward_refl r : moves_forward r r.
Proof. unfold moves_forward. split_and!; done. Qed.

Lemma moves_forward_trans r1 r2 r3 :
  moves_forward r1 r2 → moves_forward r2 r3 → moves_forward r1 r3.
Proof.
  intros (Hk1 & Hu1 & Hd1 & Hc1 & Hdl1 & He1 & Hn1) (Hk2 & Hu2 & Hd2 & Hc2 & Hdl2 & He2 & Hn2).
  unfold moves_forward. split_and!; try congruence; try (by etrans); eauto.
Qed.

Lemma next_source_moves_forward r : moves_forward r (Request.next_source r).2.
Proof.
  unfold Request.next_source.
  destruct (Request.downloaded r); [apply moves_forward_refl|].
  destruct (Request.candidates r !! Request.cursor r); [|apply moves_forward_refl].
  unfold moves_forward. simpl. split_and!; try done. lia.
Qed.

Lemma next_source_None_same r :
  (Request.next_source r).1 = None → (Request.next_source r).2 = r.
Proof.
  unfold Request.next_source.
  destruct (Request.downloaded r); [done|].
  by destruct (Request.candidates r !! Request.cursor r).
Qed.

Lemma next_source_Some r source address :
  (Request.next_source r).1 = Some (source, address) →
  Request.downloaded r = false
  ∧ Request.candidates r !! Request.cursor r = Some (source, address)
  ∧ (Request.next_source r).2 = Request.set_cursor (S (Request.cursor r)) r.
Proof.
  unfold Request.next_source.
  destruct (Request.downloaded r); [done|].
  destruct (Request.candidates r !! Request.cursor r) as [c|]; [|done].
  simpl. by intros [= ->].
Qed.

Lemma collated_body_moves_forward acc request q :
  moves_forward (acc.2 q) ((collated_body acc request).2 q).
Proof.
  destruct (decide (q = request)) as [->|Hne].
  2:{ rewrite collated_body_other by done. apply moves_forward_refl. }
  destruct acc as [c st].
  destruct (Request.downloaded (st request)) eqn:Hd.
  { rewrite collated_body_downloaded by done. apply moves_forward_refl. }
  destruct (Request.next_source (st request)).1 as [[source address]|] eqn:Hn.
  - rewrite (collated_body_candidate c st request source address) by done. simpl.
    rewrite fn_lookup_insert. apply next_source_moves_forward.
  - rewrite collated_body_exhausted by done. simpl.
    rewrite fn_lookup_insert. apply next_source_moves_forward.
Qed.

Lemma collated_from_moves_forward l acc q :
  moves_forward (acc.2 q) ((collated_from l acc).2 q).
Proof.
  revert acc. induction l as [|request l IH]; intros acc; [apply moves_forward_refl|].
  rewrite collated_from_cons.
  eapply moves_forward_trans; [apply collated_body_moves_forward | apply IH].
Qed.

Lemma collated_body_sound l st0 acc request :
  request ∈ l → sound l st0 acc → sound l st0 (collated_body acc request).
Proof.
  intros Hin [Hmove Hjobs]. split.
  { intros q. eapply moves_forward_trans; [apply Hmove | apply collated_body_moves_forward]. }
  destruct acc as [c st]. simpl in Hmove, Hjobs.
  destruct (Request.downloaded (st request)) eqn:Hd.
  { by rewrite collated_body_downloaded. }
  destruct (Request.next_source (st request)).1 as [[source address]|] eqn:Hn.
  2:{ by rewrite collated_body_exhausted. }
  rewrite (collated_body_candidate c st request source address) by done. simpl.
  intros source' jobs Hl.
  destruct (decide (source = source')) as [<-|Hne].
  2:{ rewrite lookup_insert_ne in Hl by done. by apply Hjobs. }
  rewrite lookup_insert_eq in Hl. injection Hl as <-. split.
  { by destruct (default [] (c !! source)). }
  apply Forall_app. split.
  { destruct (c !! source) as [jobs|] eqn:Hc; simpl; [by apply (Hjobs source)|constructor]. }
  constructor; [|constructor].
  destruct (Hmove request) as (_ & _ & Hdest & Hcand & Hdl & _ & _).
  destruct (next_source_Some _ _ _ Hn) as (_ & Hlook & _).
  unfold job_of. simpl. split_and!; try done.
  - destruct (Request.downloaded (st0 request)); [|done].
    rewrite Hdl in Hd by done. discriminate.
  - rewrite <- Hcand. by eapply list_elem_of_lookup_2.
Qed.

Lemma collated_from_sound l st0 l' acc :
  l' ⊆ l → sound l st0 acc → sound l st0 (collated_from l' acc).
Proof.
  revert acc. induction l' as [|request l' IH]; intros acc Hsub Hs; [done|].
  rewrite collated_from_cons. apply IH.
  - intros x Hx. apply Hsub. by apply list_elem_of_further.
  - apply collated_body_sound; [|done]. apply Hsub, list_elem_of_here.
Qed.

(** X1. In the mapping [collated] returns no source has an empty job list,
    and every job refers to a request of the list that was not downloaded
    when [collated] was called, sits under the source of one of the
    candidates of that request, with the address of that candidate, and
    has the destination of the request; this holds for any list, also one
    that names a request twice. *)
Theorem collated_jobs_sound request_list st source jobs :
  (collated request_list st).1 !! source = Some jobs →
  jobs ≠ []
  ∧ ∀ j, j ∈ jobs →
      Nectar.data j ∈ request_list
      ∧ Request.downloaded (st (Nectar.data j)) = false
      ∧ (source, Nectar.url j) ∈ Request.candidates (st (Nectar.data j))
      ∧ Nectar.destination j = Request.destination (st (Nectar.data j)).
Proof.
  intros Hl.
  assert (Hs : sound request_list st (collated request_list st)).
  { apply collated_from_sound; [done|]. split; [intros q; apply moves_forward_refl|].
    intros source' jobs' Hl'. simpl in Hl'. by rewrite lookup_empty in Hl'. }
  destruct Hs as [_ Hjobs]. destruct (Hjobs source jobs Hl) as [Hne Hall].
  split; [done|]. intros j Hj. rewrite Forall_forall in Hall. exact (Hall j Hj).
Qed.

Lemma next_source_None_iff r :
  (Request.next_source r).1 = None
  ↔ Request.downloaded r = true ∨ Request.has_source r = false.
Proof.
  unfold Request.next_source, Request.has_source.
  destruct (Request.downloaded r); [naive_solver|].
  destruct (Request.candidates r !! Request.cursor r) as [c|] eqn:Hl; simpl.
  - apply lookup_lt_Some in Hl. rewrite bool_decide_eq_false. split; [done|].
    intros [?|?]; [done | lia].
  - apply lookup_ge_None in Hl. rewrite bool_decide_eq_false. split; [|done].
    intros _. right. lia.
Qed.

Lemma collated_body_idle c st request :
  (Request.next_source (st request)).1 = None →
  (collated_body (c, st) request).1 = c
  ∧ ∀ q, (collated_body (c, st) request).2 q = st q.
Proof.
  intros Hn. destruct (Request.downloaded (st request)) eqn:Hd.
  { by rewrite collated_body_downloaded. }
  rewrite collated_body_exhausted by done. split; [done|]. intros q. simpl.
  destruct (decide (request = q)) as [->|Hne].
  - rewrite fn_lookup_insert. by apply next_source_None_same.
  - by rewrite fn_lookup_insert_ne.
Qed.

Lemma collated_from_idle l c st :
  (∀ request, request ∈ l → (Request.next_source (st request)).1 = None) →
  (collated_from l (c, st)).1 = c ∧ ∀ q, (collated_from l (c, st)).2 q = st q.
Proof.
  revert st. induction l as [|request l IH]; intros st Hidle; [done|].
  rewrite collated_from_cons.
  destruct (collated_body_idle c st request) as [Hc Hst].
  { apply Hidle, list_elem_of_here. }
  destruct (collated_body (c, st) request) as [c' st']. simpl in Hc, Hst. subst c'.
  destruct (IH st') as [Hc' Hst'].
  { intros r Hr. rewrite Hst. by apply Hidle, list_elem_of_further. }
  split; [done|]. intros q. by rewrite Hst', Hst.
Qed.

Lemma collated_from_busy l c st :
  (collated_from l (c, st)).1 = ∅ →
  ∀ request, request ∈ l → (Request.next_source (st request)).1 = None.
Proof.
  revert c st. induction l as [|request l IH]; intros c st Hempty r Hr.
  { by apply elem_of_nil in Hr. }
  rewrite collated_from_cons in Hempty.
  destruct (Request.next_source (st request)).1 as [[source address]|] eqn:Hn.
  - exfalso. destruct (next_source_Some _ _ _ Hn) as (Hd & _ & _).
    rewrite (collated_body_candidate c st request source address) in Hempty by done.
    edestruct (collated_from_grows l) as [later Hl]; [|rewrite Hempty in Hl; done].
    simpl. apply lookup_insert_eq.
  - destruct (collated_body_idle c st request Hn) as [Hc Hst].
    destruct (collated_body (c, st) request) as [c' st']. simpl in Hc, Hst. subst c'.
    apply elem_of_cons in Hr as [->|Hr]; [done|].
    rewrite <- Hst. by apply (IH c st').
Qed.

(** X2. [collated] returns an empty mapping exactly when every request of
    the list is downloaded or has no candidate left, and then it changes no
    request. *)
Theorem collated_empty_iff request_list st :
  ((collated request_list st).1 = ∅
   ↔ ∀ request, request ∈ request_list →
       Request.downloaded (st request) = true ∨ Request.has_source (st request) = false)
  ∧ ((collated request_list st).1 = ∅ → ∀ q, (collated request_list st).2 q = st q).
Proof.
  assert (Hiff : (collated request_list st).1 = ∅
    ↔ ∀ request, request ∈ request_list → (Request.next_source (st request)).1 = None).
  { split; [apply collated_from_busy | intros H; by apply collated_from_idle]. }
  split.
  - rewrite Hiff. split; intros H r Hr; by apply next_source_None_iff, H.
  - intros Hempty. apply collated_from_idle. by apply Hiff.
Qed.

Lemma set_cursor_same r : Request.set_cursor (Request.cursor r) r = r.
Proof. by destruct r. Qed.

Lemma next_source_only_cursor r :
  (Request.next_source r).2 = Request.set_cursor (Request.cursor (Request.next_source r).2) r
  ∧ (Request.cursor r ≤ length (Request.candidates r) →
     Request.cursor (Request.next_source r).2 ≤ length (Request.candidates r)).
Proof.
  unfold Request.next_source.
  destruct (Request.downloaded r); [by rewrite set_cursor_same|].
  destruct (Request.candidates r !! Request.cursor r) eqn:Hl; simpl.
  - split; [done|]. intros _. by apply lookup_lt_Some in Hl.
  - by rewrite set_cursor_same.
Qed.

Lemma collated_body_only_cursor acc request q :
  (collated_body acc request).2 q
  = Request.set_cursor (Request.cursor ((collated_body acc request).2 q)) (acc.2 q)
  ∧ (Request.cursor (acc.2 q) ≤ length (Request.candidates (acc.2 q)) →
     Request.cursor ((collated_body acc request).2 q) ≤ length (Request.candidates (acc.2 q))).
Proof.
  destruct (decide (q = request)) as [->|Hne].
  2:{ rewrite collated_body_other by done. by rewrite set_cursor_same. }
  destruct acc as [c st].
  destruct (Request.downloaded (st request)) eqn:Hd.
  { rewrite collated_body_downloaded by done. simpl. by rewrite set_cursor_same. }
  destruct (Request.next_source (st request)).1 as [[source address]|] eqn:Hn.
  - rewrite (collated_body_candidate c st request source address) by done. simpl.
    rewrite fn_lookup_insert. apply next_source_only_cursor.
  - rewrite collated_body_exhausted by done. simpl.
    rewrite fn_lookup_insert. apply next_source_only_cursor.
Qed.

Lemma collated_from_only_cursor l acc q :
  (collated_from l acc).2 q
  = Request.set_cursor (Request.cursor ((collated_from l acc).2 q)) (acc.2 q)
  ∧ (Request.cursor (acc.2 q) ≤ length (Request.candidates (acc.2 q)) →
     Request.cursor ((collated_from l acc).2 q) ≤ length (Request.candidates (acc.2 q))).
Proof.
  revert acc. induction l as [|request l IH]; intros acc.
  { simpl. by rewrite set_cursor_same. }
  rewrite collated_from_cons.
  destruct (collated_body_only_cursor acc request q) as [H1 B1].
  destruct (IH (collated_body acc request)) as [H2 B2].
  assert (Hcand : Request.candidates ((collated_body acc request).2 q)
                  = Request.candidates (acc.2 q)) by by rewrite H1.
  rewrite Hcand in B2. split; [|by intros; apply B2, B1].
  etrans; [exact H2|].
  generalize (Request.cursor ((collated_from l (collated_body acc request)).2 q)).
  intros n. by rewrite H1.
Qed.

Lemma collated_from_once l acc q :
  NoDup l → q ∈ l → (collated_from l acc).2 q = (Request.next_source (acc.2 q)).2.
Proof.
  revert acc. induction l as [|request l IH]; intros acc Hnd Hq.
  { by apply elem_of_nil in Hq. }
  apply NoDup_cons in Hnd as [Hnot Hnd]. rewrite collated_from_cons.
  apply elem_of_cons in Hq as [->|Hq].
  - rewrite collated_from_other by done. destruct acc as [c st].
    change ((c, st).2 request) with (st request).
    destruct (Request.downloaded (st request)) eqn:Hd.
    { rewrite collated_body_downloaded by done. simpl.
      unfold Request.next_source. by rewrite Hd. }
    destruct (Request.next_source (st request)).1 as [[source address]|] eqn:Hn.
    + rewrite (collated_body_candidate c st request source address) by done. simpl.
      by rewrite fn_lookup_insert.
    + rewrite collated_body_exhausted by done. simpl. by rewrite fn_lookup_insert.
  - rewrite IH by done. rewrite collated_body_other; [done|]. by intros ->.
Qed.

(** X3. [collated] changes nothing of a request but its cursor, which it
    never moves back nor past the end of the candidates; requests outside
    the list are left alone; and of a list of distinct requests each one is
    advanced by exactly one call of [next_source()]. *)
Theorem collated_store request_list st q :
  let st' := (collated request_list st).2 in
  st' q = Request.set_cursor (Request.cursor (st' q)) (st q)
  ∧ Request.cursor (st q) ≤ Request.cursor (st' q)
  ∧ (Request.cursor (st q) ≤ length (Request.candidates (st q)) →
     Request.cursor (st' q) ≤ length (Request.candidates (st q)))
  ∧ (q ∉ request_list → st' q = st q)
  ∧ (NoDup request_list → q ∈ request_list → st' q = (Request.next_source (st q)).2).
Proof.
  intros st'. unfold st', collated.
  destruct (collated_from_only_cursor request_list (∅, st) q) as [Honly Hbound].
  split_and!.
  - exact Honly.
  - by destruct (collated_from_moves_forward request_list (∅, st) q) as (_&_&_&_&_&_&?).
  - exact Hbound.
  - intros Hq. by rewrite collated_from_other.
  - intros Hnd Hq. by rewrite collated_from_once.
Qed.

End CollatedJobs.

(** ** Relations kept and calls recorded by the parts of a run *)

Section Keeps.

Context {Listener Catalog : Type}.
Context (R : relation (State Listener Catalog)) `{!PreOrder R} (Q : Event → Prop).

Implicit Types (s : State Listener Catalog) (t : list Event).

#[local] Set Default Proof Using "All".

Lemma keeps_intro {A} (m : M Listener Catalog A) :
  (∀ s t, ∃ o s' new, m s t = (o, s', t ++ new) ∧ R s s' ∧ Forall Q new) →
  keeps R Q m.
Proof.
  intros H s t. destruct (H s t) as (o & s' & new & -> & HR & HQ).
  split; [done|]. by exists new.
Qed.

Lemma keeps_elim {A} (m : M Listener Catalog A) s t :
  keeps R Q m → ∃ o s' new, m s t = (o, s', t ++ new) ∧ R s s' ∧ Forall Q new.
Proof.
  intros H. destruct (H s t) as (HR & new & Hc & HQ).
  destruct (m s t) as [[o s'] t']. unfold final, calls in *. simpl in *. subst t'.
  by exists o, s', new.
Qed.

Lemma keeps_ret {A} (a : A) : keeps R Q (ret a).
Proof. apply keeps_intro. intros s t. exists (Returned a), s, []. by rewrite app_nil_r. Qed.

Lemma keeps_out_of_fuel {A} : keeps R Q (@out_of_fuel Listener Catalog A).
Proof. apply keeps_intro. intros s t. exists OutOfFuel, s, []. by rewrite app_nil_r. Qed.

Lemma keeps_gets {A} (f : State Listener Catalog → A) : keeps R Q (gets f).
Proof. apply keeps_intro. intros s t. exists (Returned (f s)), s, []. by rewrite app_nil_r. Qed.

Lemma keeps_modify (f : State Listener Catalog → State Listener Catalog) :
  (∀ s, R s (f s)) → keeps R Q (modify f).
Proof.
  intros Hf. apply keeps_intro. intros s t. exists (Returned tt), (f s), [].
  by rewrite app_nil_r.
Qed.

Lemma keeps_emit ev : Q ev → keeps R Q (emit ev).
Proof.
  intros Hq. apply keeps_intro. intros s t. exists (Returned tt), s, [ev].
  split_and!; try done. by constructor.
Qed.

Lemma keeps_external {A} (f : State Listener Catalog → Result A * State Listener Catalog) :
  (∀ s, R s (f s).2) → keeps R Q (external f).
Proof.
  intros Hf. apply keeps_intro. intros s t. unfold external.
  pose proof (Hf s) as HR. destruct (f s) as [[a|e] s']; simpl in HR.
  - exists (Returned a), s', []. by rewrite app_nil_r.
  - exists (Raised e), s', []. by rewrite app_nil_r.
Qed.

Lemma keeps_bind {A B} (m : M Listener Catalog A) (k : A → M Listener Catalog B) :
  keeps R Q m → (∀ a, keeps R Q (k a)) → keeps R Q (x <- m ;; k x).
Proof.
  intros Hm Hk. apply keeps_intro. intros s t. unfold bind.
  destruct (keeps_elim m s t Hm) as (o & s1 & new1 & -> & HR1 & HQ1).
  destruct o as [a|e|]; [|by eexists _, _, _..].
  destruct (keeps_elim (k a) s1 (t ++ new1) (Hk a)) as (o2 & s2 & new2 & -> & HR2 & HQ2).
  exists o2, s2, (new1 ++ new2). rewrite app_assoc. split_and!; try done.
  - by etrans.
  - by apply Forall_app.
Qed.

Lemma keeps_try_except {A} (m : M Listener Catalog A) (h : Exception → M Listener Catalog A) :
  keeps R Q m → (∀ e, keeps R Q (h e)) → keeps R Q (try_except m h).
Proof.
  intros Hm Hh. apply keeps_intro. intros s t. unfold try_except.
  destruct (keeps_elim m s t Hm) as (o & s1 & new1 & -> & HR1 & HQ1).
  destruct o as [a|e|]; [by eexists _, _, _| |by eexists _, _, _].
  destruct (keeps_elim (h e) s1 (t ++ new1) (Hh e)) as (o2 & s2 & new2 & -> & HR2 & HQ2).
  exists o2, s2, (new1 ++ new2). rewrite app_assoc. split_and!; try done.
  - by etrans.
  - by apply Forall_app.
Qed.

Lemma keeps_for_each {A} (l : list A) (body : A → M Listener Catalog unit) :
  (∀ x, x ∈ l → keeps R Q (body x)) → keeps R Q (for_each l body).
Proof.
  induction l as [|x l IH]; intros Hbody; [apply keeps_ret|].
  simpl. apply keeps_bind.
  - apply Hbody, list_elem_of_here.
  - intros _. apply IH. intros y Hy. by apply Hbody, list_elem_of_further.
Qed.

End Keeps.

Section Finishes.

Context {Listener Catalog : Type}.

Implicit Types (s : State Listener Catalog) (t : list Event).

Lemma finishes_ret {A} (a : A) : finishes (@ret Listener Catalog A a).
Proof. by intros s t. Qed.

Lemma finishes_gets {A} (f : State Listener Catalog → A) : finishes (gets f).
Proof. by intros s t. Qed.

Lemma finishes_modify (f : State Listener Catalog → State Listener Catalog) :
  finishes (modify f).
Proof. by intros s t. Qed.

Lemma finishes_emit ev : finishes (@emit Listener Catalog ev).
Proof. by intros s t. Qed.

Lemma finishes_external {A}
    (f : State Listener Catalog → Result A * State Listener Catalog) :
  finishes (external f).
Proof. intros s t. unfold external, outcome. by destruct (f s) as [[a|e] s']. Qed.

Lemma finishes_bind {A B} (m : M Listener Catalog A) (k : A → M Listener Catalog B) :
  finishes m → (∀ a, finishes (k a)) → finishes (x <- m ;; k x).
Proof.
  intros Hm Hk s t. unfold bind. specialize (Hm s t).
  destruct (m s t) as [[[a|e|] s1] t1]; [apply Hk|done|done].
Qed.

Lemma finishes_try_except {A} (m : M Listener Catalog A)
    (h : Exception → M Listener Catalog A) :
  finishes m → (∀ e, finishes (h e)) → finishes (try_except m h).
Proof.
  intros Hm Hh s t. unfold try_except. specialize (Hm s t).
  destruct (m s t) as [[[a|e|] s1] t1]; [done|apply Hh|done].
Qed.

Lemma finishes_for_each {A} (l : list A) (body : A → M Listener Catalog unit) :
  (∀ x, finishes (body x)) → finishes (for_each l body).
Proof.
  intros Hbody. induction l as [|x l IH]; [apply finishes_ret|].
  simpl. apply finishes_bind; [apply Hbody | by intros _].
Qed.

End Finishes.

Section RunKeeps.

Context {Listener Catalog : Type} `{!Environment Listener Catalog}.
Context (R : relation (State Listener Catalog)) `{!PreOrder R} (Q : Event → Prop).

Implicit Types (s : State Listener Catalog) (t : list Event) (c : Collation).

(** What the relation and the condition on calls must allow: the steps of
    the bridge and of the listener, and the calls of the bridge. *)
Hypothesis R_listener : ∀ (l : Listener) n q s, R s (listener_call l n q s).2.
Hypothesis R_downloaded : ∀ q s, R s (mark_downloaded q s).
Hypothesis R_error : ∀ q msg s, R s (record_error q msg s).
Hypothesis R_cancelled : ∀ b s, R s (set_cancelled b s).
Hypothesis Q_notified : ∀ n q, Q (Notified n q).
Hypothesis Q_logged : ∀ n, Q (LogException n).
Hypothesis Q_cancel : ∀ d, Q (DownloaderCancel d).

#[local] Set Default Proof Using "All".

Lemma keeps_notify (l : Listener) n q : keeps R Q (_notify l n q).
Proof.
  unfold _notify, invoke. apply keeps_try_except; [done|..].
  - apply keeps_bind; [done|by apply keeps_emit|].
    intros _. by apply keeps_external.
  - intros e. by apply keeps_emit.
Qed.

Lemma keeps_listener (n : Notification) (q : nat) (l : option Listener) :
  keeps R Q (match l with
             | None => ret tt
             | Some l => _notify l n q
             end).
Proof. destruct l; [apply keeps_notify | by apply keeps_ret]. Qed.

Lemma keeps_deliver d a : keeps R Q (deliver d a).
Proof.
  destruct a as [[] report|]; simpl.
  - unfold download_started. apply keeps_bind; [done|by apply keeps_gets|].
    intros [|]; [by apply keeps_emit|].
    apply keeps_bind; [done|by apply keeps_gets|]. apply keeps_listener.
  - unfold download_succeeded. apply keeps_bind; [done|by apply keeps_gets|].
    intros [|]; [by apply keeps_emit|].
    apply keeps_bind; [done|by apply keeps_modify|]. intros _.
    apply keeps_bind; [done|by apply keeps_gets|]. apply keeps_listener.
  - unfold download_failed. apply keeps_bind; [done|by apply keeps_gets|].
    intros [|]; [by apply keeps_emit|].
    apply keeps_bind; [done|by apply keeps_modify|]. intros _.
    apply keeps_bind; [done|by apply keeps_gets|].
    intros [l|]; [|by apply keeps_ret].
    apply keeps_bind; [done|by apply keeps_gets|].
    intros [|]; [by apply keeps_ret | apply keeps_notify].
  - unfold cancel. by apply keeps_modify.
Qed.

Lemma keeps_downloader_download d nectar_list :
  Q (DownloaderDownload d nectar_list) → keeps R Q (downloader_download d nectar_list).
Proof.
  intros Hq. unfold downloader_download.
  apply keeps_bind; [done|by apply keeps_emit|]. intros _.
  apply keeps_bind; [done|by apply keeps_gets|]. intros script.
  apply keeps_bind; [done| |].
  - apply keeps_for_each; [done|]. intros a _. apply keeps_deliver.
  - intros _. apply keeps_external; [done|]. by intros s.
Qed.

Lemma keeps_dispatch c :
  (∀ source nectar_list, c !! source = Some nectar_list →
     Q (DownloaderDownload (downloader source) nectar_list)) →
  keeps R Q (dispatch c).
Proof.
  intros Hq. unfold dispatch. apply keeps_for_each; [done|].
  intros [source nectar_list] Hin. apply keeps_downloader_download.
  by apply Hq, elem_of_map_to_list.
Qed.

Lemma keeps_download_loop fuel request_list :
  (∀ s, R s (set_requests (collated request_list (requests s)).2 s)) →
  (∀ st source nectar_list,
     (collated request_list st).1 !! source = Some nectar_list →
     Q (DownloaderDownload (downloader source) nectar_list)) →
  keeps R Q (download_loop fuel request_list).
Proof.
  intros HR HQ. induction fuel as [|fuel IH]; [by apply keeps_out_of_fuel|].
  apply keeps_intro; [done|]. intros s t.
  destruct (cancelled s) eqn:Hc.
  { rewrite download_loop_cancelled by done. exists (Returned tt), s, [].
    by rewrite app_nil_r. }
  destruct (decide ((collated request_list (requests s)).1 = ∅)) as [He|He].
  { rewrite download_loop_empty by done. eexists _, _, []. by rewrite app_nil_r. }
  rewrite download_loop_round by done. unfold bind.
  destruct (keeps_elim R Q (dispatch (collated request_list (requests s)).1)
              (set_requests (collated request_list (requests s)).2 s) t)
    as (o & s2 & new1 & -> & HR1 & HQ1).
  { apply keeps_dispatch. apply HQ. }
  assert (HRs : R s s2) by (etrans; [apply HR | done]).
  destruct o as [[]|e|]; [|by eexists _, _, _..].
  destruct (keeps_elim R Q _ s2 (t ++ new1) IH) as (o3 & s3 & new3 & -> & HR3 & HQ3).
  exists o3, s3, (new1 ++ new3). rewrite app_assoc. split_and!; try done.
  - by etrans.
  - by apply Forall_app.
Qed.

End RunKeeps.

Section RunFinishes.

Context {Listener Catalog : Type} `{!Environment Listener Catalog}.

Implicit Types (s : State Listener Catalog) (t : list Event) (c : Collation).

(** The transport and the bridge come to an end by themselves. *)
Lemma finishes_deliver d a : finishes (deliver d a).
Proof.
  intros s t. destruct (deliver_returns d a s t) as (s' & new & ->). done.
Qed.

Lemma finishes_dispatch c : finishes (dispatch c).
Proof.
  unfold dispatch. apply finishes_for_each. intros [source nectar_list].
  unfold downloader_download.
  apply finishes_bind; [apply finishes_emit|]. intros _.
  apply finishes_bind; [apply finishes_gets|]. intros script.
  apply finishes_bind; [|intros _; apply finishes_external].
  apply finishes_for_each. intros a. apply finishes_deliver.
Qed.


End RunFinishes.

(** ** Properties of the dispatch loop as a whole *)

#[global] Instance forward_preorder {Listener Catalog} :
  PreOrder (@forward Listener Catalog).
Proof.
  split.
  - intros s q. apply moves_forward_refl.
  - intros s1 s2 s3 H1 H2 q. eapply moves_forward_trans; [apply H1 | apply H2].
Qed.

#[global] Instance no_more_left_preorder {Listener Catalog} :
  PreOrder (@no_more_left Listener Catalog).
Proof.
  split.
  - by intros s q.
  - intros s1 s2 s3 H1 H2 q. etrans; [apply H2 | apply H1].
Qed.

#[global] Instance any_state_preorder {Listener Catalog} :
  PreOrder (@any_state Listener Catalog).
Proof. by split. Qed.

Section Loop.

Context {Listener Catalog : Type} `{!Environment Listener Catalog}.

Implicit Types (s : State Listener Catalog) (t : list Event) (c : Collation).

Lemma moves_forward_remaining r r' :
  moves_forward r r' → remaining r' ≤ remaining r.
Proof. intros (_ & _ & _ & Hc & _ & _ & Hn). unfold remaining. rewrite Hc. lia. Qed.

Lemma mark_downloaded_forward q s : forward s (mark_downloaded q s).
Proof.
  intros r. unfold mark_downloaded. simpl.
  destruct (decide (q = r)) as [->|Hne].
  - rewrite fn_lookup_alter. unfold moves_forward. simpl. split_and!; done.
  - rewrite fn_lookup_alter_ne by done. apply moves_forward_refl.
Qed.

Lemma record_error_forward q msg s : forward s (record_error q msg s).
Proof.
  intros r. unfold record_error. simpl.
  destruct (decide (q = r)) as [->|Hne].
  - rewrite fn_lookup_alter. unfold moves_forward. simpl. split_and!; try done.
    by apply prefix_app_r.
  - rewrite fn_lookup_alter_ne by done. apply moves_forward_refl.
Qed.

Lemma collated_forward request_list s :
  forward s (set_requests (collated request_list (requests s)).2 s).
Proof. intros q. simpl. apply (collated_from_moves_forward request_list (∅, requests s)). Qed.

Lemma forward_no_more_left s s' : forward s s' → no_more_left s s'.
Proof. intros H q. apply moves_forward_remaining, H. Qed.

Lemma new_calls_app {A} (o : Outcome A) s t new :
  new_calls t (o, s, t ++ new) = new.
Proof. unfold new_calls, calls. simpl. apply drop_app_length. Qed.

Lemma collated_batches request_list st source nectar_list :
  (collated request_list st).1 !! source = Some nectar_list →
  batch_of request_list (DownloaderDownload (downloader source) nectar_list).
Proof.
  intros Hl d jobs [= <- <-].
  assert (Hs : sound request_list st (collated request_list st)).
  { apply collated_from_sound; [done|]. split; [intros q; apply moves_forward_refl|].
    intros source' jobs' Hl'. simpl in Hl'. by rewrite lookup_empty in Hl'. }
  destruct Hs as [_ Hjobs]. destruct (Hjobs source nectar_list Hl) as [Hne Hall].
  split_and!; [by exists source | done |]. intros j Hj.
  rewrite Forall_forall in Hall. by destruct (Hall j Hj).
Qed.

(** X4. When every request of the list is downloaded or has no candidate
    left (so also for an empty list), the loop returns in its first round:
    nothing is dispatched, no listener is called and no request changes. *)
Theorem download_loop_nothing_to_do fuel request_list s t :
  (∀ request, request ∈ request_list →
     Request.downloaded (requests s request) = true
     ∨ Request.has_source (requests s request) = false) →
  let r := download_loop (S fuel) request_list s t in
  outcome r = Returned tt
  ∧ calls r = t
  ∧ cancelled (final r) = cancelled s
  ∧ ∀ q, requests (final r) q = requests s q.
Proof.
  intros Hidle r. unfold r.
  destruct (cancelled s) eqn:Hc.
  { rewrite download_loop_cancelled by done. unfold outcome, calls, final. simpl.
    split_and!; done. }
  assert (Hnone : ∀ request, request ∈ request_list →
            (Request.next_source (requests s request)).1 = None).
  { intros q Hq. by apply next_source_None_iff, Hidle. }
  destruct (collated_from_idle request_list ∅ (requests s) Hnone) as [He Hst].
  rewrite download_loop_empty by done. unfold outcome, calls, final. simpl.
  split_and!; done.
Qed.

(** X5. Every batch the loop hands to a downloader goes to the downloader
    of a content source, is not empty and holds only jobs for requests of
    the request list, whatever the listener and the transports do. *)
Theorem download_loop_batches fuel request_list s t d jobs :
  (d, jobs) ∈ dispatched (new_calls t (download_loop fuel request_list s t)) →
  (∃ source, d = downloader source)
  ∧ jobs ≠ []
  ∧ ∀ j, j ∈ jobs → Nectar.data j ∈ request_list.
Proof.
  intros Hin.
  destruct (keeps_elim any_state (batch_of request_list)
              (download_loop fuel request_list) s t)
    as (o & s' & new & Hrun & _ & HQ).
  { apply keeps_download_loop; try apply _; try done.
    intros st source nectar_list. apply collated_batches. }
  rewrite Hrun, new_calls_app in Hin.
  apply list_elem_of_omap in Hin as (ev & Hev & Hd).
  destruct ev; try discriminate. injection Hd as -> ->.
  rewrite Forall_forall in HQ. by apply (HQ _ Hev).
Qed.

(** X6. With a listener whose callbacks let requests only move forward (for
    one, a listener that does not touch them), a run of the loop lets
    every request only move forward, however it ends: a downloaded request
    stays downloaded, errors are only added, the cursor never goes back and
    the candidates, the destination and the identity stay as they were. *)
Theorem download_loop_forward fuel request_list s t :
  (∀ (l : Listener) n q s0, forward s0 (listener_call l n q s0).2) →
  ∀ q, moves_forward (requests s q)
         (requests (final (download_loop fuel request_list s t)) q).
Proof.
  intros Hlistener.
  destruct (keeps_elim forward any_call (download_loop fuel request_list) s t)
    as (o & s' & new & Hrun & HR & _); [|by rewrite Hrun].
  apply keeps_download_loop; try apply _; try done;
    first [ apply mark_downloaded_forward
          | apply record_error_forward
          | apply collated_forward
          | intros b s0 q; apply moves_forward_refl ].
Qed.

Lemma sum_list_with_le {A} (f g : A → nat) l :
  (∀ y, f y ≤ g y) → sum_list_with f l ≤ sum_list_with g l.
Proof.
  intros Hle. induction l as [|y l IH]; simpl; [done|]. specialize (Hle y). lia.
Qed.

Lemma sum_list_with_lt {A} (f g : A → nat) l x :
  (∀ y, f y ≤ g y) → x ∈ l → f x < g x → sum_list_with f l < sum_list_with g l.
Proof.
  intros Hle Hx Hlt. induction l as [|y l IH]; [by apply elem_of_nil in Hx|].
  simpl. apply elem_of_cons in Hx as [<-|Hx].
  - pose proof (sum_list_with_le f g l Hle). lia.
  - specialize (IH Hx). specialize (Hle y). lia.
Qed.

Lemma collated_from_advances l acc request :
  request ∈ l →
  (Request.next_source (acc.2 request)).1 ≠ None →
  Request.cursor (acc.2 request) < Request.cursor ((collated_from l acc).2 request).
Proof.
  revert acc. induction l as [|x l IH]; intros acc Hin Hn.
  { by apply elem_of_nil in Hin. }
  rewrite collated_from_cons.
  destruct (decide (x = request)) as [->|Hne].
  - destruct (collated_from_moves_forward l (collated_body acc request) request)
      as (_ & _ & _ & _ & _ & _ & Hmono).
    eapply Nat.lt_le_trans; [|exact Hmono].
    destruct acc as [c st]. change ((c, st).2 request) with (st request) in *.
    destruct (Request.next_source (st request)).1 as [[source address]|] eqn:Hsrc; [|done].
    destruct (next_source_Some _ _ _ Hsrc) as (Hd & _ & Hnext).
    rewrite (collated_body_candidate c st request source address) by done. simpl.
    rewrite fn_lookup_insert, Hnext. simpl. lia.
  - apply elem_of_cons in Hin as [->|Hin]; [done|].
    pose proof (collated_body_other acc x request) as Hsame.
    rewrite <- Hsame by done. apply IH; [done|]. by rewrite Hsame.
Qed.

Lemma collated_pending request_list (st : Store) :
  (collated request_list st).1 ≠ ∅ →
  pending request_list (collated request_list st).2 < pending request_list st.
Proof.
  intros Hne.
  destruct (decide (Forall (λ q, (Request.next_source (st q)).1 = None) request_list))
    as [Hall|Hsome].
  { exfalso. apply Hne. apply collated_from_idle. by apply Forall_forall. }
  apply not_Forall_Exists in Hsome; [|apply _].
  apply Exists_exists in Hsome as (request & Hin & Hsrc).
  unfold pending. apply (sum_list_with_lt _ _ _ request); [|done|].
  - intros q. apply moves_forward_remaining.
    apply (collated_from_moves_forward request_list (∅, st)).
  - pose proof (collated_from_advances request_list (∅, st) request Hin Hsrc) as Hadv.
    destruct (collated_from_only_cursor request_list (∅, st) request) as [Honly _].
    fold (collated request_list st) in Hadv, Honly. simpl in Hadv, Honly.
    destruct (Request.next_source (st request)).1 as [[source address]|] eqn:Hs; [|done].
    destruct (next_source_Some _ _ _ Hs) as (_ & Hlook & _).
    apply lookup_lt_Some in Hlook.
    unfold remaining. rewrite Honly. simpl. lia.
Qed.

(** Every round that dispatches uses up at least one candidate of a listed
    request, so a bound above the number of candidates left is never used
    up. *)
Lemma download_loop_ends fuel request_list s t :
  (∀ (l : Listener) n q s0, no_more_left s0 (listener_call l n q s0).2) →
  pending request_list (requests s) < fuel →
  outcome (download_loop fuel request_list s t) ≠ OutOfFuel.
Proof.
  intros Hlistener. revert s t. induction fuel as [|fuel IH]; intros s t Hfuel; [lia|].
  destruct (cancelled s) eqn:Hc.
  { by rewrite download_loop_cancelled. }
  destruct (decide ((collated request_list (requests s)).1 = ∅)) as [He|He].
  { by rewrite download_loop_empty. }
  rewrite download_loop_round by done. unfold bind.
  pose proof (collated_pending request_list (requests s) He) as Hless.
  pose proof (finishes_dispatch (collated request_list (requests s)).1
                (set_requests (collated request_list (requests s)).2 s) t) as Hfin.
  destruct (keeps_elim no_more_left any_call
              (dispatch (collated request_list (requests s)).1)
              (set_requests (collated request_list (requests s)).2 s) t)
    as (o & s2 & new & Hrun & HR & _).
  { apply keeps_dispatch; try apply _; try done;
      first [ intros q0 s0; apply forward_no_more_left, mark_downloaded_forward
            | intros q0 msg s0; apply forward_no_more_left, record_error_forward
            | by intros b s0 q0 ]. }
  rewrite Hrun in Hfin |- *. destruct o as [[]|e|]; [|done|done].
  apply IH.
  assert (pending request_list (requests s2)
          ≤ pending request_list (collated request_list (requests s)).2).
  { apply sum_list_with_le. intros q. apply (HR q). }
  lia.
Qed.

Lemma download_loop_more_fuel n m request_list s t :
  outcome (download_loop n request_list s t) ≠ OutOfFuel →
  n ≤ m →
  download_loop m request_list s t = download_loop n request_list s t.
Proof.
  revert m s t. induction n as [|n IH]; intros m s t Hout Hle; [done|].
  destruct m as [|m]; [lia|].
  destruct (cancelled s) eqn:Hc.
  { by rewrite !download_loop_cancelled. }
  destruct (decide ((collated request_list (requests s)).1 = ∅)) as [He|He].
  { by rewrite !download_loop_empty. }
  rewrite !download_loop_round in * by done. unfold bind in *.
  destruct (dispatch _ _ t) as [[[[]|e|] s2] t2]; [|done|done].
  apply IH; [done | lia].
Qed.

(** X7. With a listener whose callbacks do not give a request more
    candidates to try (for one, a listener that does not touch requests),
    the loop comes to an end within as many dispatching rounds as the
    entries of the list have candidates left: a larger bound is never used
    up, and the result is the same for every larger bound. *)
Theorem download_loop_terminates fuel request_list s t :
  (∀ (l : Listener) n q s0, no_more_left s0 (listener_call l n q s0).2) →
  pending request_list (requests s) < fuel →
  outcome (download_loop fuel request_list s t) ≠ OutOfFuel
  ∧ ∀ more, fuel ≤ more →
      download_loop more request_list s t = download_loop fuel request_list s t.
Proof.
  intros Hlistener Hfuel.
  assert (Hout : outcome (download_loop fuel request_list s t) ≠ OutOfFuel)
    by by apply download_loop_ends.
  split; [done|]. intros more Hmore. by apply download_loop_more_fuel.
Qed.

Lemma find_sources_returns primary request_list s t :
  ∃ s', for_each request_list (find_sources primary) s t = (Returned tt, s', t).
Proof.
  revert s. induction request_list as [|request l IH]; intros s; [by exists s|].
  simpl. unfold bind. unfold find_sources at 1. unfold modify. apply IH.
Qed.

(** What comes before the loop either hands over to it or, when the
    refresh pass raises, ends [download()] there. *)
Lemma download_prologue primary_downloader request_list s t :
  ∃ s1 t1,
    (∀ fuel,
       download fuel primary_downloader request_list s t
       = download_loop fuel request_list s1 t1)
    ∨ (∃ e, ∀ fuel,
         download fuel primary_downloader request_list s t = (Raised e, s1, t1)).
Proof.
  destruct (refresh_loop_outcome false (sources (set_cancelled false s)) []
              (set_cancelled false (set_cancelled false s)) t)
    as (o & s2 & new & Hloop & _ & Hfuel & _).
  destruct o as [r|e|]; [| |done].
  2:{ exists s2, (t ++ new). right. exists e. intros fuel.
      unfold download. unfold bind at 1. unfold reset, modify.
      unfold bind at 1. rewrite refresh_unfold. unfold bind at 1. by rewrite Hloop. }
  pose proof (refresh_end_spec r s2 (t ++ new)) as Hend.
  destruct (find_sources_returns (PrimarySource primary_downloader) request_list
              (match r with
               | Some _ => set_catalog (purge_expired (catalog s2)) s2
               | None => s2
               end)
              (match r with
               | Some _ => (t ++ new) ++ [PurgeExpired]
               | None => t ++ new
               end)) as [s3 Hfind].
  eexists s3, _. left. intros fuel. unfold download. unfold bind at 1.
  unfold reset, modify.
  unfold bind at 1. rewrite refresh_unfold. unfold bind at 1. rewrite Hloop, Hend.
  unfold bind at 1. rewrite Hfind. reflexivity.
Qed.

(** X8. With a listener whose callbacks do not give a request more
    candidates to try, [download()] comes to an end: from some bound on, the
    loop bound is never used up and the result no longer depends on it. *)
Theorem download_terminates primary_downloader request_list s t :
  (∀ (l : Listener) n q s0, no_more_left s0 (listener_call l n q s0).2) →
  ∃ n, ∀ fuel, n ≤ fuel →
    outcome (download fuel primary_downloader request_list s t) ≠ OutOfFuel
    ∧ download fuel primary_downloader request_list s t
      = download n primary_downloader request_list s t.
Proof.
  intros Hlistener.
  destruct (download_prologue primary_downloader request_list s t)
    as (s1 & t1 & [Hrun|[e Hrun]]).
  2:{ exists 0. intros fuel _. by rewrite !Hrun. }
  exists (S (pending request_list (requests s1))). intros fuel Hfuel.
  rewrite !Hrun.
  assert (Hn : outcome (download_loop (S (pending request_list (requests s1)))
                          request_list s1 t1) ≠ OutOfFuel).
  { apply download_loop_ends; [done | lia]. }
  rewrite (download_loop_more_fuel _ fuel) by done. done.
Qed.

Lemma set_cancelled_same s : set_cancelled (cancelled s) s = s.
Proof. by destruct s. Qed.

Lemma script_cancelled d (script : list TransportAction) s t :
  cancelled s = true →
  for_each script (deliver d) s t = (Returned tt, s, t ++ cancels d script).
Proof.
  intros Hc. revert t. induction script as [|a script IH]; intros t.
  { simpl. unfold ret. by rewrite app_nil_r. }
  simpl. unfold bind. destruct a as [n report|].
  - rewrite handler_cancelled by done. rewrite IH. unfold cancels. simpl.
    by rewrite <- app_assoc.
  - simpl. unfold cancel, modify. rewrite <- Hc, set_cancelled_same. apply IH.
Qed.

(** X9. A batch dispatched while the warehouse is cancelled changes no
    request and reaches no listener: the state stays as it is, and for each
    event of the transport the bridge only tells the downloader to
    cancel. *)
Theorem downloader_download_cancelled d nectar_list s t :
  cancelled s = true →
  let r := downloader_download d nectar_list s t in
  final r = s
  ∧ new_calls t r
    = DownloaderDownload d nectar_list :: cancels d (transport d nectar_list s).1
  ∧ notified (new_calls t r) = [].
Proof.
  intros Hc r. unfold r, downloader_download, bind, emit, gets, external.
  rewrite script_cancelled by done. rewrite <- app_assoc. simpl.
  assert (Hnone : ∀ script, notified (cancels d script) = []).
  { induction script as [|[]]; simpl; done. }
  destruct (transport d nectar_list s).2;
    rewrite new_calls_app; unfold final; simpl; split_and!; try done; apply Hnone.
Qed.

(** X10. For one event the bridge makes at most one listener call, of the
    kind of the event and for the request of the report, followed by at
    most one log entry; it tells the downloader to cancel exactly when the
    warehouse is cancelled, and then does nothing else. *)
Theorem bridge_calls d n report s t :
  let r := deliver d (Deliver n report) s t in
  let q := Nectar.report_data report in
  (cancelled s = true ∧ new_calls t r = [DownloaderCancel d])
  ∨ (cancelled s = false
     ∧ (new_calls t r = []
        ∨ new_calls t r = [Notified n q]
        ∨ new_calls t r = [Notified n q; LogException n])).
Proof.
  intros r q. unfold r.
  destruct (cancelled s) eqn:Hc.
  { left. rewrite handler_cancelled by done. by rewrite new_calls_app. }
  right. split; [done|].
  destruct (listener s) as [l|] eqn:Hl.
  2:{ left. rewrite handler_no_listener by done.
      rewrite <- (app_nil_r t) at 2. by rewrite new_calls_app. }
  assert (Hn : ∀ s1,
    new_calls t (_notify l n q s1 t) = [Notified n q]
    ∨ new_calls t (_notify l n q s1 t) = [Notified n q; LogException n]).
  { intros s1. rewrite notify_spec, new_calls_app.
    destruct (listener_call l n q s1).1; [by left | by right]. }
  destruct n; simpl.
  - right. rewrite (download_started_listener d report l) by done. apply Hn.
  - right. rewrite (download_succeeded_listener d report l) by done. apply Hn.
  - rewrite (download_failed_listener d report l) by done.
    destruct (Request.has_source _).
    + left. rewrite <- (app_nil_r t) at 2. by rewrite new_calls_app.
    + right. apply Hn.
Qed.

End Loop.

(** ** More on [refresh]: which sources are contacted *)

Section RefreshContacts.

Context {Listener Catalog : Type} `{!Environment Listener Catalog}.

Implicit Types (s : State Listener Catalog) (t : list Event).
Implicit Types (items : list (string * ContentSource)) (reports : list RefreshReport).

Lemma refresh_loop_all_fresh items reports s t :
  cancelled s = false →
  (∀ i source, (i, source) ∈ items → has_entries (catalog s) i = true) →
  refresh_loop false items reports s t = (Returned (Some reports), s, t).
Proof.
  intros Hc Hfresh. induction items as [|[i source] items IH]; [done|].
  rewrite refresh_loop_fresh; [|done|].
  - apply IH. intros j src Hj. eapply Hfresh. by apply list_elem_of_further.
  - simpl. rewrite (Hfresh i source); [done | apply list_elem_of_here].
Qed.

(** X11. A refresh without [force] on a catalog that has entries for every
    registered source contacts no source: it clears the flag, purges the
    expired entries and returns an empty list of reports. *)
Theorem refresh_skips_fresh s t :
  (∀ i source, (i, source) ∈ sources s → has_entries (catalog s) i = true) →
  refresh false s t
  = (Returned (Some []),
     set_catalog (purge_expired (catalog s)) (set_cancelled false s),
     t ++ [PurgeExpired]).
Proof.
  intros Hfresh. rewrite refresh_unfold. unfold bind.
  by rewrite refresh_loop_all_fresh, refresh_end_spec.
Qed.

Lemma refreshed_app evs1 evs2 : refreshed (evs1 ++ evs2) = refreshed evs1 ++ refreshed evs2.
Proof. apply omap_app. Qed.

(** The loop contacts sources of its list only, each at most once and in
    the order of the list; with [force], the flag never set and no failure
    of which [str] raises, it contacts them all. *)
Lemma refresh_loop_contacts force items reports s t :
  ∃ o s' new,
    refresh_loop force items reports s t = (o, s', t ++ new)
    ∧ refreshed new `sublist_of` items.*1
    ∧ (PurgeExpired ∉ new)
    ∧ (force = true →
       (∀ source s1, cancelled (source_refresh source s1).2 = cancelled s1) →
       (∀ source s1 e, (source_refresh source s1).1 = Raise e → ∃ text, str e = Ok text) →
       cancelled s = false →
       refreshed new = items.*1 ∧ (∃ rs, o = Returned (Some rs)) ∧ cancelled s' = false).
Proof.
  revert reports s t. induction items as [|[i source] items IH]; intros reports s t.
  - exists (Returned (Some reports)), s, []. rewrite app_nil_r. split_and!; try done.
    + apply not_elem_of_nil.
    + intros _ _ _ Hc. split_and!; [done | by exists reports | done].
  - destruct (cancelled s) eqn:Hc.
    { rewrite refresh_loop_cancelled by done. exists (Returned None), s, [].
      rewrite app_nil_r.
      split_and!; try done; [apply sublist_nil_l | apply not_elem_of_nil]. }
    destruct (force || negb (has_entries (catalog s) i)) eqn:Hf.
    2:{ rewrite refresh_loop_fresh by done.
        destruct (IH reports s t) as (o & s' & new & Hrun & Hsub & Hp & Hall).
        exists o, s', new. split_and!; try done.
        - by apply sublist_cons.
        - intros ->. done. }
    pose proof (λ Henv : ∀ source s1, cancelled (source_refresh source s1).2 = cancelled s1,
                  Henv source s) as Hkeep.
    pose proof (λ Hstr : ∀ source s1 e,
                  (source_refresh source s1).1 = Raise e → ∃ text, str e = Ok text,
                  Hstr source s) as Htext.
    destruct (source_refresh source s) as [[report|e] s2] eqn:Hr; simpl in Hkeep, Htext.
    + rewrite (refresh_loop_refreshed _ _ _ _ _ _ _ report s2) by done.
      destruct (IH (reports ++ report) s2 (t ++ [SourceRefresh i]))
        as (o & s' & new & Hrun & Hsub & Hp & Hall).
      exists o, s', (SourceRefresh i :: new). rewrite Hrun, <- app_assoc.
      split_and!; try done.
      * simpl. by apply sublist_skip.
      * intros Hx. apply elem_of_cons in Hx as [Hx|Hx]; [discriminate | done].
      * intros Hforce Henv Hstr _. destruct (Hall Hforce Henv Hstr) as (Hq & Hsome & Hc').
        { rewrite Hkeep by done. done. }
        simpl. by rewrite Hq.
    + destruct (str e) as [text|e'] eqn:He.
      * rewrite (refresh_loop_failed _ _ _ _ _ _ _ e s2 text) by done.
        destruct (IH (reports ++ [mkRefreshReport i "" [text]]) s2
                     (t ++ [SourceRefresh i; LogError i e]))
          as (o & s' & new & Hrun & Hsub & Hp & Hall).
        exists o, s', (SourceRefresh i :: LogError i e :: new).
        rewrite Hrun, <- app_assoc.
        split_and!; try done.
        -- simpl. by apply sublist_skip.
        -- intros Hx. apply elem_of_cons in Hx as [Hx|Hx]; [discriminate|].
           apply elem_of_cons in Hx as [Hx|Hx]; [discriminate | done].
        -- intros Hforce Henv Hstr _.
           destruct (Hall Hforce Henv Hstr) as (Hq & Hsome & Hc').
           { rewrite Hkeep by done. done. }
           simpl. by rewrite Hq.
      * rewrite (refresh_loop_escapes _ _ _ _ _ _ _ e s2 e') by done.
        exists (Raised e'), s2, [SourceRefresh i; LogError i e].
        split_and!; try done.
        -- simpl. apply sublist_skip, sublist_nil_l.
        -- intros Hx. apply elem_of_cons in Hx as [Hx|Hx]; [discriminate|].
           apply list_elem_of_singleton in Hx. discriminate.
        -- intros _ _ Hstr _. destruct (Htext Hstr e eq_refl) as [text Hok].
           rewrite He in Hok. discriminate.
Qed.

(** X12. Whatever the sources do, a refresh pass calls [refresh()] only on
    registered sources, on each at most once and in the order of the
    registry, and it purges the catalog at most once, after the last
    source. *)
Theorem refresh_contacts force s t :
  let r := refresh force s t in
  ∃ new,
    calls r = t ++ new
    ∧ refreshed new `sublist_of` (sources s).*1
    ∧ (∀ evs1 evs2, new = evs1 ++ PurgeExpired :: evs2 →
         evs2 = [] ∧ (PurgeExpired ∉ evs1)).
Proof.
  intros r. unfold r. rewrite refresh_unfold. unfold bind.
  destruct (refresh_loop_contacts force (sources s) []
              (set_cancelled false s) t)
    as (o & s' & new & Hrun & Hsub & Hp & _).
  assert (Hnone : ∀ evs1 evs2, new = evs1 ++ PurgeExpired :: evs2 →
            evs2 = [] ∧ (PurgeExpired ∉ evs1)).
  { intros evs1 evs2 ->. exfalso. apply Hp.
    apply elem_of_app. right. apply list_elem_of_here. }
  rewrite Hrun. destruct o as [[rs|]|e|].
  - rewrite refresh_end_spec. unfold calls. simpl.
    exists (new ++ [PurgeExpired]). rewrite app_assoc. split_and!; try done.
    + rewrite refreshed_app. simpl. by rewrite app_nil_r.
    + intros evs1 evs2 Heq.
      destruct evs2 as [|ev evs2 _] using rev_ind.
      * apply app_inj_tail in Heq as [-> _]. done.
      * exfalso. rewrite app_comm_cons, app_assoc in Heq.
        apply app_inj_tail in Heq as [-> _]. apply Hp.
        apply elem_of_app. right. apply list_elem_of_here.
  - rewrite refresh_end_spec. by exists new.
  - by exists new.
  - by exists new.
Qed.

(** X13. With [force], and sources during whose refresh nobody cancels and
    whose failures are exceptions of which [str] returns the text, a
    refresh pass calls [refresh()] on every registered source exactly in
    the order of the registry, whether or not the catalog has entries for
    it and whether or not it fails, and then returns its reports. *)
Theorem refresh_force_contacts_all s t :
  (∀ source s1, cancelled (source_refresh source s1).2 = cancelled s1) →
  (∀ source s1 e, (source_refresh source s1).1 = Raise e → ∃ text, str e = Ok text) →
  let r := refresh true s t in
  refreshed (new_calls t r) = (sources s).*1
  ∧ ∃ rs, outcome r = Returned (Some rs).
Proof.
  intros Henv Hstr r. unfold r. rewrite refresh_unfold. unfold bind.
  destruct (refresh_loop_contacts true (sources s) []
              (set_cancelled false s) t)
    as (o & s' & new & Hrun & _ & _ & Hall).
  destruct (Hall eq_refl Henv Hstr eq_refl) as (Hq & [rs ->] & _).
  rewrite Hrun, refresh_end_spec. unfold new_calls, calls, outcome. simpl.
  rewrite <- app_assoc, drop_app_length, refreshed_app. simpl.
  rewrite app_nil_r. split; [done | by exists rs].
Qed.

(** X14. When a pass finds the flag set at the check of a source, it stops
    there: neither that source nor a later one is contacted, the catalog is
    not purged and the state is left as it was at the check. *)
Theorem refresh_stops_when_cancelled force pre i source post s0 t0 reports s t :
  sources s0 = pre ++ (i, source) :: post →
  refresh_loop force pre [] (set_cancelled false s0) t0 = (Returned (Some reports), s, t) →
  cancelled s = true →
  let r := refresh force s0 t0 in
  final r = s
  ∧ calls r = t
  ∧ refreshed (new_calls t0 r) `sublist_of` pre.*1
  ∧ (PurgeExpired ∉ new_calls t0 r).
Proof.
  intros Hsrc Hpre Hc r. unfold r.
  rewrite (refresh_cut_short force pre i source post s0 t0 reports s t) by done.
  destruct (refresh_loop_contacts force pre [] (set_cancelled false s0) t0)
    as (o & s' & new & Hrun & Hsub & Hp & _).
  rewrite Hpre in Hrun. injection Hrun as _ _ ->.
  by rewrite new_calls_app.
Qed.

(** X19. When the [refresh()] of a source raises an exception of which
    [str] raises in its turn, the error of [str] leaves [refresh] from
    inside the handler, after the failure is logged: no report is added,
    no later source is contacted and the catalog is not purged.  A
    [download()] in that state ends with the same error before it looks at
    a request. *)
Theorem refresh_failure_escapes force pre i source post s0 t0 reports s t e s2 e' :
  sources s0 = pre ++ (i, source) :: post →
  refresh_loop force pre [] (set_cancelled false s0) t0 = (Returned (Some reports), s, t) →
  cancelled s = false →
  force || negb (has_entries (catalog s) i) = true →
  source_refresh source s = (Raise e, s2) →
  str e = Raise e' →
  refresh force s0 t0 = (Raised e', s2, t ++ [SourceRefresh i; LogError i e])
  ∧ (force = false →
     ∀ fuel primary_downloader request_list,
       download fuel primary_downloader request_list s0 t0
       = (Raised e', s2, t ++ [SourceRefresh i; LogError i e])).
Proof.
  intros Hsrc Hpre Hc Hf Hr Hstr.
  assert (Heq : refresh force s0 t0
                = (Raised e', s2, t ++ [SourceRefresh i; LogError i e])).
  { rewrite refresh_unfold, Hsrc. unfold bind at 1.
    rewrite refresh_loop_app. unfold bind at 1. rewrite Hpre.
    by rewrite (refresh_loop_escapes _ _ _ _ _ _ _ e s2 e'). }
  split; [exact Heq|]. intros -> fuel primary_downloader request_list.
  unfold download. unfold bind at 1. unfold reset, modify. unfold bind at 1.
  change (refresh false (set_cancelled false s0) t0) with (refresh false s0 t0).
  by rewrite Heq.
Qed.

End RefreshContacts.

(** ** [purge_orphans] *)

Section PurgeOrphans.

Context {Listener Catalog : Type}.
Context `{!Environment Listener Catalog} `{!OrphanPurge Catalog}.

Implicit Types (s : State Listener Catalog) (t : list Event).

(** X15. [purge_orphans] hands the catalog the ids of all registered
    sources and touches nothing else; with a catalog manager that keeps the
    entries of the ids it is given, no registered source loses its entries,
    so a refresh without [force] that had nothing to contact before the
    purge has nothing to contact after it. *)
Theorem purge_orphans_keeps_registered s t :
  (∀ c ids i, i ∈ ids →
     has_entries (catalog_purge_orphans c ids) i = has_entries c i) →
  let r := purge_orphans s t in
  outcome r = Returned tt
  ∧ calls r = t
  ∧ final r = set_catalog (catalog_purge_orphans (catalog s) (sources s).*1) s
  ∧ (∀ i source, (i, source) ∈ sources s →
       has_entries (catalog (final r)) i = has_entries (catalog s) i)
  ∧ ((∀ i source, (i, source) ∈ sources s → has_entries (catalog s) i = true) →
     refreshed (new_calls t ((purge_orphans ;; refresh false) s t)) = []).
Proof.
  intros Hcontract r. unfold r, purge_orphans, bind, gets, modify, outcome, calls, final.
  simpl.
  assert (Hkeep : ∀ i source, (i, source) ∈ sources s →
    has_entries (catalog_purge_orphans (catalog s) (sources s).*1) i
    = has_entries (catalog s) i).
  { intros i source Hin. apply Hcontract.
    apply list_elem_of_fmap. by exists (i, source). }
  split_and!; try done.
  intros Hfresh. rewrite refresh_unfold. unfold bind.
  rewrite refresh_loop_all_fresh, refresh_end_spec; [|done|].
  - unfold new_calls, calls. simpl. by rewrite drop_app_length.
  - intros i source Hin. simpl in *. rewrite (Hkeep i source) by done. by eapply Hfresh.
Qed.

End PurgeOrphans.

(** ** From one round to the next: the bridge and [collated] together *)

Section Rounds.

Context {Listener Catalog : Type} `{!Environment Listener Catalog}.

Implicit Types (s : State Listener Catalog) (t : list Event) (st : Store).

Lemma collated_from_downloaded l acc q :
  Request.downloaded (acc.2 q) = true → (collated_from l acc).2 q = acc.2 q.
Proof.
  revert acc. induction l as [|request l IH]; intros acc Hd; [done|].
  rewrite collated_from_cons.
  assert (Hsame : (collated_body acc request).2 q = acc.2 q).
  { destruct (decide (q = request)) as [->|Hne]; [|by apply collated_body_other].
    destruct acc as [c st]. by rewrite collated_body_downloaded. }
  rewrite IH; [done|]. by rewrite Hsame.
Qed.

(** X16. A request reported as succeeded is not tried again: unless the
    listener itself resets it, the request is downloaded after the event,
    and a collation built afterwards holds no job for it and leaves its
    cursor where it is. *)
Theorem succeeded_request_is_left_alone d report s t request_list :
  let q := Nectar.report_data report in
  cancelled s = false →
  (∀ l : Listener, listener s = Some l →
     requests (listener_call l Succeeded q (mark_downloaded q s)).2 q
     = requests (mark_downloaded q s) q) →
  let s' := final (download_succeeded d report s t) in
  let c := collated request_list (requests s') in
  Request.downloaded (requests s' q) = true
  ∧ c.2 q = requests s' q
  ∧ ∀ source jobs j, c.1 !! source = Some jobs → j ∈ jobs → Nectar.data j ≠ q.
Proof.
  intros q Hc Hlistener s' c.
  assert (Hd : Request.downloaded (requests s' q) = true).
  { unfold s'. destruct (listener s) as [l|] eqn:Hl.
    - rewrite (download_succeeded_listener d report l) by done. fold q.
      rewrite notify_spec. unfold final. simpl. rewrite (Hlistener l eq_refl).
      apply mark_downloaded_downloaded.
    - pose proof (handler_no_listener d Succeeded report s t Hc Hl) as Hrun.
      simpl in Hrun. rewrite Hrun. apply mark_downloaded_downloaded. }
  split; [done|]. split.
  - unfold c, collated. by rewrite collated_from_downloaded.
  - intros source jobs j Hjobs Hj Hq.
    assert (Hs : sound request_list (requests s') c).
    { apply collated_from_sound; [done|]. split; [intros r; apply moves_forward_refl|].
      intros source' jobs' Hl'. simpl in Hl'. by rewrite lookup_empty in Hl'. }
    destruct Hs as [_ Hall]. destruct (Hall source jobs Hjobs) as [_ Hfor].
    rewrite Forall_forall in Hfor. destruct (Hfor j Hj) as (_ & Hnot & _).
    rewrite Hq, Hd in Hnot. discriminate.
Qed.

(** X17. A failure with a candidate left stays silent and does not use up
    a candidate: the message is recorded, no listener is called, and the
    next collation of a list of distinct requests that holds the request
    has a job for its next candidate, under the source of that candidate. *)
Theorem failed_request_falls_back d report s t request_list source address :
  let q := Nectar.report_data report in
  cancelled s = false →
  Request.downloaded (requests s q) = false →
  Request.candidates (requests s q) !! Request.cursor (requests s q)
    = Some (source, address) →
  q ∈ request_list →
  NoDup request_list →
  let r := download_failed d report s t in
  let c := collated request_list (requests (final r)) in
  outcome r = Returned tt
  ∧ calls r = t
  ∧ Request.errors (c.2 q) = Request.errors (requests s q) ++ [Nectar.error_msg report]
  ∧ Request.cursor (c.2 q) = S (Request.cursor (requests s q))
  ∧ ∃ jobs,
      c.1 !! source = Some jobs
      ∧ Nectar.mkRequest address (Request.destination (requests s q)) q ∈ jobs.
Proof.
  intros q Hc Hd Hcand Hin Hnd r c.
  assert (Hsrc : Request.has_source (requests s q) = true).
  { unfold Request.has_source. apply bool_decide_eq_true. by eapply lookup_lt_Some. }
  assert (Hrun : r = (Returned tt, record_error q (Nectar.error_msg report) s, t)).
  { unfold r. destruct (listener s) as [l|] eqn:Hl.
    - rewrite (download_failed_listener d report l) by done. fold q. by rewrite Hsrc.
    - by apply (handler_no_listener d Failed). }
  assert (Hreq : requests (final r) q
    = Request.set_errors (Request.errors (requests s q) ++ [Nectar.error_msg report])
        (requests s q)).
  { rewrite Hrun. unfold final, record_error. simpl. by rewrite fn_lookup_alter. }
  assert (Hnext : (Request.next_source (requests (final r) q)).1 = Some (source, address)).
  { rewrite Hreq. unfold Request.next_source. simpl. by rewrite Hd, Hcand. }
  apply list_elem_of_split in Hin as (pre & post & ->).
  apply NoDup_app in Hnd as (_ & Hpre & Hpost).
  assert (Hnpre : q ∉ pre).
  { intros Hq. apply (Hpre _ Hq), list_elem_of_here. }
  apply NoDup_cons in Hpost as [Hnpost _].
  assert (Hbefore : (collated_from pre (∅, requests (final r))).2 q = requests (final r) q)
    by by rewrite collated_from_other.
  destruct (collated_from pre (∅, requests (final r))) as [c1 st1] eqn:Hc1.
  simpl in Hbefore.
  assert (Hc_eq : c = collated_from post (collated_body (c1, st1) q)).
  { unfold c, collated. by rewrite collated_from_app, collated_from_cons, Hc1. }
  assert (Hd1 : Request.downloaded (st1 q) = false) by by rewrite Hbefore, Hreq.
  rewrite <- Hbefore in Hnext.
  rewrite (collated_body_candidate c1 st1 q source address Hd1 Hnext) in Hc_eq.
  rewrite Hrun. unfold outcome, calls. simpl. split_and!; try done.
  - rewrite Hc_eq, collated_from_other by done. simpl. rewrite fn_lookup_insert.
    destruct (next_source_Some _ _ _ Hnext) as (_ & _ & ->). simpl.
    by rewrite Hbefore, Hreq.
  - rewrite Hc_eq, collated_from_other by done. simpl. rewrite fn_lookup_insert.
    destruct (next_source_Some _ _ _ Hnext) as (_ & _ & ->). simpl.
    by rewrite Hbefore, Hreq.
  - edestruct (collated_from_grows post) as [later Hl]; [|rewrite Hc_eq; eexists;
      split; [exact Hl|]].
    + simpl. apply lookup_insert_eq.
    + rewrite Hbefore, Hreq. simpl. apply elem_of_app. left.
      apply elem_of_app. right. apply list_elem_of_here.
Qed.

End Rounds.

(** ** The further properties at work on the concrete deployments *)

Lemma scenario_listener_forward (l : Scenario.Listener) n q
    (s : State Scenario.Listener Scenario.Catalog) :
  forward s (listener_call l n q s).2.
Proof. destruct l; intros r; apply moves_forward_refl. Qed.

Lemma scenario_listener_no_more_left (l : Scenario.Listener) n q
    (s : State Scenario.Listener Scenario.Catalog) :
  no_more_left s (listener_call l n q s).2.
Proof. destruct l; by intros r. Qed.

Lemma housekeeping_contract (c : Scenario.Catalog) (ids : list string) (i : string) :
  i ∈ ids →
  has_entries (catalog_purge_orphans c ids) i = has_entries c i.
Proof.
  intros Hi.
  change (Scenario.has_entries (Housekeeping.purge c ids) i = Scenario.has_entries c i).
  unfold Housekeeping.purge, Scenario.has_entries.
  induction c as [|e c IH]; [done|].
  rewrite filter_cons. destruct (decide (e.1.1 ∈ ids)) as [Hin|Hout].
  - cbn [existsb]. by rewrite IH.
  - rewrite IH. cbn [existsb].
    destruct (String.eqb_spec e.1.1 i) as [Heq|Hne]; [|done].
    by rewrite Heq in Hout.
Qed.

Lemma collated_jobs_witness :
  let job := Nectar.mkRequest "http://b/3" "/tmp/3" 3 in
  (collated [2; 1; 0; 3] Scenario.store).1 !! Scenario.source_b = Some [job]
  ∧ [job] ≠ []
  ∧ ∀ j, j ∈ [job] →
      Nectar.data j ∈ [2; 1; 0; 3]
      ∧ Request.downloaded (Scenario.store (Nectar.data j)) = false
      ∧ (Scenario.source_b, Nectar.url j)
          ∈ Request.candidates (Scenario.store (Nectar.data j))
      ∧ Nectar.destination j = Request.destination (Scenario.store (Nectar.data j)).
Proof.
  intros job.
  assert (Hl : (collated [2; 1; 0; 3] Scenario.store).1 !! Scenario.source_b = Some [job])
    by by vm_compute.
  split; [exact Hl|].
  exact (collated_jobs_sound [2; 1; 0; 3] Scenario.store Scenario.source_b [job] Hl).
Defined.

Lemma download_loop_nothing_to_do_witness :
  let s := Scenario.state Scenario.registry (Some Scenario.Quiet) false in
  let r := download_loop 1 [1; 2] s [] in
  (∀ request, request ∈ [1; 2] →
     Request.downloaded (requests s request) = true
     ∨ Request.has_source (requests s request) = false)
  ∧ outcome r = Returned tt
  ∧ calls r = []
  ∧ cancelled (final r) = cancelled s
  ∧ ∀ q, requests (final r) q = requests s q.
Proof.
  intros s r.
  assert (Hidle : ∀ request, request ∈ [1; 2] →
            Request.downloaded (requests s request) = true
            ∨ Request.has_source (requests s request) = false).
  { intros q Hq. apply elem_of_cons in Hq as [->|Hq]; [by right|].
    apply list_elem_of_singleton in Hq as ->. by left. }
  split; [exact Hidle|].
  exact (download_loop_nothing_to_do 0 [1; 2] s [] Hidle).
Defined.

Lemma download_loop_batches_witness :
  let s := Scenario.state Scenario.registry (Some Scenario.Quiet) false in
  let d := SourceDownloader "b" in
  let jobs := [Nectar.mkRequest "http://b/3" "/tmp/3" 3] in
  (d, jobs) ∈ dispatched (new_calls [] (download_loop 5 [3] s []))
  ∧ (∃ source, d = downloader source)
  ∧ jobs ≠ []
  ∧ ∀ j, j ∈ jobs → Nectar.data j ∈ [3].
Proof.
  intros s d jobs.
  assert (Hin : (d, jobs) ∈ dispatched (new_calls [] (download_loop 5 [3] s []))).
  { apply (bool_decide_unpack _). by vm_compute. }
  split; [exact Hin|].
  exact (download_loop_batches 5 [3] s [] d jobs Hin).
Defined.

Lemma download_loop_forward_witness :
  let s := Scenario.state Scenario.registry (Some Scenario.Faulty) false in
  (∀ (l : Scenario.Listener) n q s0, forward s0 (listener_call l n q s0).2)
  ∧ ∀ q, moves_forward (requests s q) (requests (final (download_loop 5 [0; 3] s [])) q).
Proof.
  intros s. split; [exact scenario_listener_forward|].
  exact (download_loop_forward 5 [0; 3] s [] scenario_listener_forward).
Defined.

Lemma download_loop_terminates_witness :
  let s := Scenario.state Scenario.registry (Some Scenario.Faulty) false in
  (∀ (l : Scenario.Listener) n q s0, no_more_left s0 (listener_call l n q s0).2)
  ∧ pending [0; 3] (requests s) < 4
  ∧ outcome (download_loop 4 [0; 3] s []) ≠ OutOfFuel
  ∧ ∀ more, 4 ≤ more → download_loop more [0; 3] s [] = download_loop 4 [0; 3] s [].
Proof.
  intros s.
  assert (Hfuel : pending [0; 3] (requests s) < 4) by (vm_compute; lia).
  split; [exact scenario_listener_no_more_left|]. split; [exact Hfuel|].
  exact (download_loop_terminates 4 [0; 3] s [] scenario_listener_no_more_left Hfuel).
Defined.

Lemma download_terminates_witness :
  let s := Scenario.state Scenario.registry (Some Scenario.Quiet) true in
  (∀ (l : Scenario.Listener) n q s0, no_more_left s0 (listener_call l n q s0).2)
  ∧ ∃ n, ∀ fuel, n ≤ fuel →
      outcome (download fuel "yum" [0; 3] s []) ≠ OutOfFuel
      ∧ download fuel "yum" [0; 3] s [] = download n "yum" [0; 3] s [].
Proof.
  intros s. split; [exact scenario_listener_no_more_left|].
  exact (download_terminates "yum" [0; 3] s [] scenario_listener_no_more_left).
Defined.

Lemma downloader_download_cancelled_witness :
  let s := Scenario.state Scenario.registry (Some Scenario.Quiet) true in
  let jobs := [Nectar.mkRequest "http://a/0" "/tmp/0" 0] in
  let r := downloader_download Scenario.on_a jobs s [] in
  cancelled s = true
  ∧ final r = s
  ∧ new_calls [] r
    = [DownloaderDownload Scenario.on_a jobs;
       DownloaderCancel Scenario.on_a; DownloaderCancel Scenario.on_a]
  ∧ notified (new_calls [] r) = [].
Proof.
  intros s jobs r. split; [reflexivity|].
  exact (downloader_download_cancelled Scenario.on_a jobs s [] eq_refl).
Defined.

Lemma refresh_skips_fresh_witness :
  let s := Housekeeping.state in
  (∀ i source, (i, source) ∈ sources s → has_entries (catalog s) i = true)
  ∧ refresh false s []
    = (Returned (Some []),
       set_catalog (purge_expired (catalog s)) (set_cancelled false s),
       [PurgeExpired]).
Proof.
  intros s.
  assert (Hfresh : ∀ i source, (i, source) ∈ sources s → has_entries (catalog s) i = true).
  { intros i source Hin. apply elem_of_cons in Hin as [[= -> ->]|Hin]; [done|].
    apply list_elem_of_singleton in Hin as [= -> ->]. done. }
  split; [exact Hfresh|].
  exact (refresh_skips_fresh s [] Hfresh).
Defined.

Lemma refresh_force_contacts_all_witness :
  let s := Scenario.state Scenario.small_registry None false in
  (∀ source s1, cancelled (@source_refresh _ _ Scenario.calm source s1).2 = cancelled s1)
  ∧ (∀ source s1 e,
       (@source_refresh _ _ Scenario.calm source s1).1 = Raise e → ∃ text, str e = Ok text)
  ∧ refreshed (new_calls [] (@refresh _ _ Scenario.calm true s [])) = ["bad"; "b"]
  ∧ ∃ rs, outcome (@refresh _ _ Scenario.calm true s []) = Returned (Some rs).
Proof.
  intros s.
  assert (Hcalm : ∀ source s1,
             cancelled (@source_refresh _ _ Scenario.calm source s1).2 = cancelled s1).
  { intros [i p|d] s1; simpl; [|reflexivity].
    unfold Scenario.calm_source_refresh. by destruct (String.eqb i "bad"). }
  assert (Hstr : ∀ source s1 e,
             (@source_refresh _ _ Scenario.calm source s1).1 = Raise e
             → ∃ text, str e = Ok text).
  { intros [i p|d] s1 e; simpl; [|discriminate].
    unfold Scenario.calm_source_refresh.
    destruct (String.eqb i "bad"); [|discriminate]. intros [= <-]. by eexists. }
  split; [exact Hcalm|]. split; [exact Hstr|].
  exact (@refresh_force_contacts_all _ _ Scenario.calm s [] Hcalm Hstr).
Defined.

(** Source "garbled" fails with a message outside ASCII: the error of
    [str] ends the pass, and a [download()], before source "b" is
    contacted. *)
Lemma refresh_failure_escapes_witness :
  let s0 := Scenario.state Scenario.garbled_registry None true in
  let s := set_cancelled false s0 in
  let failure := Unprintable Scenario.encode_error in
  sources s0 = [] ++ ("garbled", AlternateSource "garbled" 3) :: [("b", Scenario.source_b)]
  ∧ @refresh_loop _ _ Scenario.garbled false [] [] s [] = (Returned (Some []), s, [])
  ∧ cancelled s = false
  ∧ false || negb (@has_entries _ _ Scenario.garbled (catalog s) "garbled") = true
  ∧ @source_refresh _ _ Scenario.garbled (AlternateSource "garbled" 3) s = (Raise failure, s)
  ∧ str failure = Raise Scenario.encode_error
  ∧ @refresh _ _ Scenario.garbled false s0 []
    = (Raised Scenario.encode_error, s,
       [] ++ [SourceRefresh "garbled"; LogError "garbled" failure])
  ∧ @download _ _ Scenario.garbled 5 "yum" [0; 3] s0 []
    = (Raised Scenario.encode_error, s,
       [] ++ [SourceRefresh "garbled"; LogError "garbled" failure]).
Proof.
  intros s0 s failure.
  pose proof (@refresh_failure_escapes _ _ Scenario.garbled false []
                "garbled" (AlternateSource "garbled" 3) [("b", Scenario.source_b)]
                s0 [] [] s [] failure s Scenario.encode_error
                eq_refl eq_refl eq_refl eq_refl eq_refl eq_refl) as [Hrefresh Hdownload].
  split_and!; [reflexivity | reflexivity | reflexivity | reflexivity | reflexivity
              | reflexivity | exact Hrefresh | exact (Hdownload eq_refl 5 "yum" [0; 3])].
Defined.

Lemma refresh_stops_witness :
  let s0 := Scenario.state Scenario.registry None false in
  let pre := take 2 Scenario.registry in
  let loop := refresh_loop false pre [] (set_cancelled false s0) [] in
  let r := refresh false s0 [] in
  sources s0 = pre ++ ("b", Scenario.source_b) :: []
  ∧ cancelled (final loop) = true
  ∧ final r = final loop
  ∧ calls r = calls loop
  ∧ refreshed (new_calls [] r) `sublist_of` pre.*1
  ∧ (PurgeExpired ∉ new_calls [] r).
Proof.
  intros s0 pre loop r.
  assert (Hloop : loop
    = (Returned (Some [mkRefreshReport "bad" "" ["connection refused"];
                       mkRefreshReport "slow" "http://slow/" []]),
       final loop, calls loop)) by by vm_compute.
  split; [reflexivity|]. split; [by vm_compute|].
  exact (refresh_stops_when_cancelled false pre "b" Scenario.source_b [] s0 []
           _ (final loop) (calls loop) eq_refl Hloop eq_refl).
Defined.

Lemma purge_orphans_witness :
  let s := Housekeeping.state in
  let r := purge_orphans s [] in
  (∀ (c : Scenario.Catalog) ids i, i ∈ ids →
     has_entries (catalog_purge_orphans c ids) i = has_entries c i)
  ∧ catalog (final r)
    = [("b", "pkg-3", "http://b/3"); ("bad", "pkg-0", "http://bad/0")]
  ∧ outcome r = Returned tt
  ∧ calls r = []
  ∧ final r = set_catalog (catalog_purge_orphans (catalog s) (sources s).*1) s
  ∧ (∀ i source, (i, source) ∈ sources s →
       has_entries (catalog (final r)) i = has_entries (catalog s) i)
  ∧ ((∀ i source, (i, source) ∈ sources s → has_entries (catalog s) i = true) →
     refreshed (new_calls [] ((purge_orphans ;; refresh false) s [])) = []).
Proof.
  intros s r. split; [exact housekeeping_contract|]. split; [by vm_compute|].
  exact (purge_orphans_keeps_registered s [] housekeeping_contract).
Defined.

Lemma succeeded_request_witness :
  let s := Scenario.state Scenario.registry (Some Scenario.Faulty) false in
  let s' := final (download_succeeded Scenario.on_a (Scenario.success 0) s []) in
  let c := collated [0; 3] (requests s') in
  cancelled s = false
  ∧ (∀ l : Scenario.Listener, listener s = Some l →
       requests (listener_call l Succeeded 0 (mark_downloaded 0 s)).2 0
       = requests (mark_downloaded 0 s) 0)
  ∧ Request.downloaded (requests s' 0) = true
  ∧ c.2 0 = requests s' 0
  ∧ ∀ source jobs j, c.1 !! source = Some jobs → j ∈ jobs → Nectar.data j ≠ 0.
Proof.
  intros s s' c.
  assert (Hquiet : ∀ l : Scenario.Listener, listener s = Some l →
            requests (listener_call l Succeeded 0 (mark_downloaded 0 s)).2 0
            = requests (mark_downloaded 0 s) 0).
  { intros l _. by destruct l. }
  split; [reflexivity|]. split; [exact Hquiet|].
  exact (succeeded_request_is_left_alone Scenario.on_a (Scenario.success 0) s [] [0; 3]
           eq_refl Hquiet).
Defined.

Lemma failed_request_witness :
  let s := Scenario.state Scenario.registry (Some Scenario.Faulty) false in
  let r := download_failed (SourceDownloader "x") (Scenario.failure 3) s [] in
  let c := collated [0; 3] (requests (final r)) in
  cancelled s = false
  ∧ Request.downloaded (requests s 3) = false
  ∧ Request.candidates (requests s 3) !! Request.cursor (requests s 3)
    = Some (Scenario.source_b, "http://b/3")
  ∧ 3 ∈ [0; 3]
  ∧ NoDup [0; 3]
  ∧ outcome r = Returned tt
  ∧ calls r = []
  ∧ Request.errors (c.2 3) = Request.errors (requests s 3) ++ ["404"]
  ∧ Request.cursor (c.2 3) = S (Request.cursor (requests s 3))
  ∧ ∃ jobs,
      c.1 !! Scenario.source_b = Some jobs
      ∧ Nectar.mkRequest "http://b/3" (Request.destination (requests s 3)) 3 ∈ jobs.
Proof.
  intros s r c.
  assert (Hin : 3 ∈ [0; 3]) by (apply list_elem_of_further, list_elem_of_here).
  assert (Hnd : NoDup [0; 3]) by (apply (bool_decide_unpack _); by vm_compute).
  split_and!; [reflexivity | reflexivity | reflexivity | exact Hin | exact Hnd | ..].
  all: by destruct (failed_request_falls_back (SourceDownloader "x") (Scenario.failure 3)
                      s [] [0; 3] Scenario.source_b "http://b/3"
                      eq_refl eq_refl eq_refl Hin Hnd) as (? & ? & ? & ? & ?).
Defined.
